(** * The filesystem tool server (demos/mcp/mcp_filesystem_server.py)

    A shallow embedding of the server's path confinement, its three tool
    handlers and its tool-call boundary, together with the parts of the
    Python runtime they rest on: [str] operations, [pathlib] on POSIX,
    symbolic-link resolution, and text-mode file iteration with
    incremental UTF-8 decoding and universal newlines.

    Conventions.
    - A Python [str] is the list of its code points ([list Z]).
    - An absolute POSIX path is the list of its components.
    - The filesystem is a tree of inodes; it is only read, never written.
    - Handlers run in a small monad that records every filesystem access
      and carries a raised exception.
    - The kernel refuses a path with ENOENT, ENOTDIR, ELOOP or
      ENAMETOOLONG (a component of more than NAME_MAX bytes).  The
      limit on the length of a whole path is not modelled, and neither
      are permissions on directories: the process may search and list
      each of them.  Regular files carry a read permission.
    - Modification times are whole seconds, and their rendering in the
      local zone is a parameter of the world that can raise.
    - Links that lead back to themselves are abstracted by a budget of
      expansions, see [joinrealpath].
    - JSON numbers with a fractional part are not modelled.

    Part I is the model, Part II the properties proved of it. *)

From Stdlib Require Import ZArith List Ascii String DecimalString Lia.
From stdpp Require Import base option list sorting gmap.

Local Open Scope Z_scope.
Set Warnings "-register-all".

(** * Part I: the model *)

(* ===================================================================== *)
(** ** Python strings *)
(* ===================================================================== *)

Abbreviation str := (list Z).

(** A literal of the source, as code points. *)
Definition lit (s : string) : str :=
  map (fun a => Z.of_N (N_of_ascii a)) (list_ascii_of_string s).

Arguments lit : simpl never.

Definition SEP : Z := 47.   (* "/" *)

Definition LF : Z := 10.

Definition CR : Z := 13.

(** [s.startswith(p)] *)
Fixpoint startswith (s p : str) : bool :=
  match p, s with
  | [], _ => true
  | _ :: _, [] => false
  | c :: p', d :: s' => if Z.eqb c d then startswith s' p' else false
  end.

(** [sep.join(xs)] *)
Fixpoint join (sep : str) (xs : list str) : str :=
  match xs with
  | [] => []
  | [x] => x
  | x :: rest => x ++ sep ++ join sep rest
  end.

(** [s.split(c)] for a one-character separator: never empty. *)
Fixpoint split (c : Z) (s : str) : list str :=
  match s with
  | [] => [[]]
  | d :: s' =>
      if Z.eqb d c then [] :: split c s'
      else match split c s' with
           | [] => [[d]]
           | w :: ws => (d :: w) :: ws
           end
  end.

(** [str(n)] for an [int]. *)
Definition str_of_int (n : Z) : str :=
  lit (NilZero.string_of_int (Z.to_int n)).

(** [ch.isspace()]: the code points [str.rstrip()] removes. *)
Definition isspace (c : Z) : bool :=
  ((9 <=? c) && (c <=? 13)) || ((28 <=? c) && (c <=? 32))
  || (c =? 133) || (c =? 160) || (c =? 5760)
  || ((8192 <=? c) && (c <=? 8202))
  || (c =? 8232) || (c =? 8233) || (c =? 8239) || (c =? 8287)
  || (c =? 12288).

(** [s.rstrip()] *)
Fixpoint rstrip (s : str) : str :=
  match s with
  | [] => []
  | c :: s' =>
      match rstrip s' with
      | [] => if isspace c then [] else [c]
      | r => c :: r
      end
  end.

(* ===================================================================== *)
(** ** Exceptions and the effect monad *)
(* ===================================================================== *)

(** The classes of [Exception] that can arise below.  [exn_msg] is what
    [str(e)] gives; for exceptions raised by the interpreter the text is
    indicative only, no statement depends on it. *)
Inductive exn_class :=
  | ValueError | TypeError | AttributeError | RuntimeError
  | OSError | FileNotFoundError | PermissionError | NotADirectoryError
  | IsADirectoryError | UnicodeDecodeError | UnicodeEncodeError.

Record exn := Exn { exn_cls : exn_class; exn_msg : str }.

(** A [pathlib.Path]: whether it is anchored at the root, and its
    components. *)
Record Path := MkPath { p_abs : bool; p_parts : list str }.

(** One record per access to the filesystem. *)
Inductive event :=
  | EvResolve (p : Path)         (* p.resolve(): lstat / readlink *)
  | EvStat (p : Path)            (* exists / is_dir / is_file / stat *)
  | EvListdir (p : Path)         (* iterdir *)
  | EvOpen (p : Path).           (* open and read *)

Definition io (A : Type) : Type := (list event * (exn + A))%type.

Definition ret {A} (a : A) : io A := ([], inr a).

Definition raise {A} (e : exn) : io A := ([], inl e).

Definition emit (ev : event) : io unit := ([ev], inr tt).

Definition io_bind {A B} (m : io A) (k : A -> io B) : io B :=
  match m with
  | (t, inl e) => (t, inl e)
  | (t, inr a) => let '(t', r) := k a in (t ++ t', r)
  end.

(** [try: m except Exception as e: h e] *)
Definition try_except {A} (m : io A) (h : exn -> io A) : io A :=
  match m with
  | (t, inl e) => let '(t', r) := h e in (t ++ t', r)
  | (t, inr a) => (t, inr a)
  end.

(** [try: m except cls: h] for one class; other exceptions pass. *)
Definition try_except_cls {A} (cls : exn_class -> bool) (m : io A) (h : io A) : io A :=
  match m with
  | (t, inl e) => if cls (exn_cls e) then let '(t', r) := h in (t ++ t', r) else (t, inl e)
  | (t, inr a) => (t, inr a)
  end.

Notation "'let*' x ':=' m 'in' k" := (io_bind m (fun x => k))
  (at level 10, x name, m at level 100, k at level 200).

Definition outcome {A} (m : io A) : exn + A := snd m.

(* ===================================================================== *)
(** ** The filesystem *)
(* ===================================================================== *)

(** What [stat] reports about a regular file, a directory or a symbolic
    link.  [st_mtime] is kept in whole seconds. *)
Inductive inode :=
  | File (data : list Z) (st_mtime : Z) (readable : bool)
  | Dir (entries : list (str * inode)) (st_mtime : Z) (st_size : Z)
  | Symlink (target : str).

Fixpoint assoc (name : str) (l : list (str * inode)) : option inode :=
  match l with
  | [] => None
  | (k, v) :: l' => if decide (k = name) then Some v else assoc name l'
  end.

(** The inode at a canonical path, links not followed. *)
Fixpoint lookup_inode (n : inode) (p : list str) : option inode :=
  match p with
  | [] => Some n
  | c :: p' =>
      match n with
      | Dir es _ _ => match assoc c es with
                      | Some m => lookup_inode m p'
                      | None => None
                      end
      | _ => None
      end
  end.

Definition is_dir_inode (n : inode) : bool :=
  match n with Dir _ _ _ => true | _ => false end.

Definition is_file_inode (n : inode) : bool :=
  match n with File _ _ _ => true | _ => false end.

(** [stat().st_size] *)
Definition inode_size (n : inode) : Z :=
  match n with
  | File d _ _ => Z.of_nat (length d)
  | Dir _ _ sz => sz
  | Symlink t => Z.of_nat (length t)
  end.

Definition inode_mtime (n : inode) : Z :=
  match n with
  | File _ t _ => t
  | Dir _ t _ => t
  | Symlink _ => 0
  end.

(** [os.path.isabs] on POSIX. *)
Definition isabs (s : str) : bool := startswith s [SEP].

(** The components of a path string that name something: empty
    components and "." are dropped, ".." is kept (pathlib's parsing). *)
Definition is_skip (c : str) : bool :=
  bool_decide (c = []) || bool_decide (c = lit ".").

Definition parts_of (s : str) : list str :=
  filter (fun c => is_skip c = false) (split SEP s).

Definition PARDIR : str := lit "..".

(** The parent of a canonical path; the root is its own parent. *)
Definition parent (p : list str) : list str := removelast p.

(** The ways in which the kernel refuses to walk a path. *)
Inductive errno :=
  | ENOENT          (* 2: a component is missing *)
  | ENOTDIR         (* 20: a component on the way is not a directory *)
  | ENAMETOOLONG    (* 36: a component is longer than NAME_MAX bytes *)
  | ELOOP.          (* 40: too many links to follow *)

(** The longest name, in bytes, that a directory can hold. *)
Definition NAME_MAX : Z := 255.

(** A byte that is not UTF-8, as [os.fsdecode] keeps it in a [str]
    (the surrogates U+DC80 to U+DCFF of "surrogateescape"). *)
Definition is_escape (ch : Z) : bool := (56448 <=? ch) && (ch <=? 56575).

(** [os.fsencode] accepts the name: it holds no surrogate but these. *)
Definition encodable (c : str) : bool :=
  forallb (fun ch => negb ((55296 <=? ch) && (ch <=? 57343)) || is_escape ch) c.

(** The number of bytes of a [str] once encoded for the kernel. *)
Definition utf8_len (c : str) : Z :=
  fold_right (fun ch n =>
                (if ch <? 128 then 1 else if ch <? 2048 then 2
                 else if is_escape ch then 1
                 else if ch <? 65536 then 3 else 4) + n) 0 c.

Definition too_long (c : str) : bool := NAME_MAX <? utf8_len c.

(** A name under which a directory can hold something. *)
Definition storable (c : str) : bool := encodable c && negb (too_long c).

Section WithFs.

Variable fs : inode.   (* the root directory "/" *)

(** [lstat] of a canonical path, links not followed: nothing is found
    under a name that cannot be encoded or has more than NAME_MAX
    bytes. *)
Definition lstat (p : list str) : option inode :=
  if forallb storable p then lookup_inode fs p else None.

(** Path resolution as the kernel does it for [stat] and [open]:
    every component must exist, links are followed, and at most
    [fuel] links are expanded (ELOOP beyond that).  Returns the
    canonical path of the inode reached, or the error the walk stops
    with. *)
Fixpoint namei (fuel : nat) (cur rest : list str) {struct fuel} : errno + list str :=
  (fix go (cur rest : list str) {struct rest} : errno + list str :=
     match rest with
     | [] => inr cur
     | name :: rest' =>
         match lstat cur with
         | Some (Dir _ _ _) =>
             if is_skip name then go cur rest'
             else if bool_decide (name = PARDIR) then go (parent cur) rest'
             else match lstat (cur ++ [name]) with
                  | None =>
                      inl (if encodable name && too_long name then ENAMETOOLONG
                           else ENOENT)
                  | Some (Symlink t) =>
                      match fuel with
                      | O => inl ELOOP
                      | S fuel' =>
                          namei fuel' (if isabs t then [] else cur)
                                (split SEP t ++ rest')
                      end
                  | Some _ => go (cur ++ [name]) rest'
                  end
         | Some _ => inl ENOTDIR
         | None => inl ENOENT
         end
     end) cur rest.

Definition MAXSYMLINKS : nat := 40.

(** [os.path.realpath(..., strict=False)] followed by pathlib's loop
    check (Python 3.10 to 3.12): components are resolved left to right,
    a missing component is kept as it is, a link is replaced by its
    target; a component that cannot be encoded makes [lstat] raise
    UnicodeEncodeError and one with a NUL ValueError.

    Links that lead back to themselves are abstracted: Python stops
    resolving at a link that it is already expanding, returns the path
    from there on unresolved, and raises RuntimeError only if [stat] on
    that path then fails with ELOOP.  Here [fuel] bounds the links that
    one resolution expands, and running out of it is RuntimeError.  A
    result [inr q] is the result of Python whenever Python meets no
    such link; the properties below that need more than this say so. *)
Fixpoint joinrealpath (fuel : nat) (path rest : list str) {struct fuel}
  : exn + list str :=
  (fix go (path rest : list str) {struct rest} : exn + list str :=
     match rest with
     | [] => inr path
     | name :: rest' =>
         if is_skip name then go path rest'
         else if bool_decide (name = PARDIR) then go (parent path) rest'
         else if negb (encodable name) then
           inl (Exn UnicodeEncodeError (lit "surrogates not allowed"))
         else if bool_decide (0 ∈ name) then
           inl (Exn ValueError (lit "embedded null byte"))
         else match lstat (path ++ [name]) with
              | Some (Symlink t) =>
                  match fuel with
                  | O => inl (Exn RuntimeError (lit "Symlink loop"))
                  | S fuel' =>
                      joinrealpath fuel' (if isabs t then [] else path)
                                   (split SEP t ++ rest')
                  end
              | _ => go (path ++ [name]) rest'
              end
     end) path rest.

End WithFs.

(* ===================================================================== *)
(** ** pathlib on POSIX *)
(* ===================================================================== *)

(** The state of the world a call runs in: the filesystem, the working
    directory of the serving process (canonical), the budget of link
    expansions of one resolution, and the local-time rendering of a
    timestamp. *)
Record world := World {
  w_fs : inode;
  w_cwd : list str;
  w_fuel : nat;
  (* datetime.fromtimestamp(t).isoformat() in the zone of the process;
     fromtimestamp raises where the local time falls outside the years
     that datetime can hold *)
  w_isoformat : Z -> exn + str
}.

(** [Path(s)] *)
Definition Path_of (s : str) : Path :=
  {| p_abs := isabs s; p_parts := parts_of s |}.

(** [str(p)] *)
Definition Path_str (p : Path) : str :=
  if p_abs p then SEP :: join [SEP] (p_parts p)
  else match p_parts p with
       | [] => lit "."
       | ps => join [SEP] ps
       end.

(** [p.name] *)
Definition Path_name (p : Path) : str := List.last (p_parts p) [].

(** [base / s]: an absolute [s] replaces [base]. *)
Definition Path_truediv (base : Path) (s : str) : Path :=
  if isabs s then Path_of s
  else {| p_abs := p_abs base; p_parts := p_parts base ++ parts_of s |}.

(** Where the kernel starts walking a path. *)
Definition start_dir (w : world) (p : Path) : list str :=
  if p_abs p then [] else w_cwd w.

(** [p.resolve()]: always absolute. *)
Definition Path_resolve (w : world) (p : Path) : io Path :=
  let* _ := emit (EvResolve p) in
  match joinrealpath (w_fs w) (w_fuel w) (start_dir w p) (p_parts p) with
  | inl e => raise e
  | inr q => ret {| p_abs := true; p_parts := q |}
  end.

(** [os.stat(p)]: what the walk of the kernel reaches, or its error. *)
Definition stat_result (w : world) (p : Path) : errno + inode :=
  match namei (w_fs w) MAXSYMLINKS (start_dir w p) (p_parts p) with
  | inr q => match lstat (w_fs w) q with
             | Some n => inr n
             | None => inl ENOENT
             end
  | inl e => inl e
  end.

(** The inode that [os.stat(p)] reports, if it reports one. *)
Definition stat_of (w : world) (p : Path) : option inode :=
  match stat_result w p with
  | inr n => Some n
  | inl _ => None
  end.

(** The OSError that an error of the kernel becomes, for the path the
    call was made on.  The message puts the path in quotes as [repr]
    does for a name without quotes, backslashes or control characters. *)
Definition oserror (cls : exn_class) (msg : string) (p : Path) : exn :=
  Exn cls (lit msg ++ lit "'" ++ Path_str p ++ lit "'").

Definition oserror_of (e : errno) (p : Path) : exn :=
  match e with
  | ENOENT => oserror FileNotFoundError "[Errno 2] No such file or directory: " p
  | ENOTDIR => oserror NotADirectoryError "[Errno 20] Not a directory: " p
  | ENAMETOOLONG => oserror OSError "[Errno 36] File name too long: " p
  | ELOOP => oserror OSError "[Errno 40] Too many levels of symbolic links: " p
  end.

(** pathlib's [_ignore_error]: the errors in which [exists], [is_dir]
    and [is_file] see a path that is not there (ENOENT, ENOTDIR, EBADF,
    ELOOP); they let every other OSError pass. *)
Definition ignore_error (e : errno) : bool :=
  match e with
  | ENOENT | ENOTDIR | ELOOP => true
  | ENAMETOOLONG => false
  end.

(** The common shape of [exists], [is_dir] and [is_file]: a test on the
    result of [stat], [False] for an ignored error. *)
Definition stat_test (test : inode -> bool) (w : world) (p : Path) : io bool :=
  let* _ := emit (EvStat p) in
  match stat_result w p with
  | inr n => ret (test n)
  | inl e => if ignore_error e then ret false else raise (oserror_of e p)
  end.

Definition Path_exists (w : world) (p : Path) : io bool :=
  stat_test (fun _ => true) w p.

Definition Path_is_dir (w : world) (p : Path) : io bool :=
  stat_test is_dir_inode w p.

Definition Path_is_file (w : world) (p : Path) : io bool :=
  stat_test is_file_inode w p.

(** The kernel answers for [p], or fails with an ignored error: the
    three tests return. *)
Definition stat_passes (w : world) (p : Path) : bool :=
  match stat_result w p with
  | inr _ => true
  | inl e => ignore_error e
  end.

(** [p.stat()] *)
Definition Path_stat (w : world) (p : Path) : io inode :=
  let* _ := emit (EvStat p) in
  match stat_result w p with
  | inr n => ret n
  | inl e => raise (oserror_of e p)
  end.

(** [p.iterdir()], in the order the directory stores its entries. *)
Definition Path_iterdir (w : world) (p : Path) : io (list Path) :=
  let* _ := emit (EvListdir p) in
  match stat_result w p with
  | inr (Dir es _ _) =>
      ret (map (fun e => {| p_abs := p_abs p; p_parts := p_parts p ++ [fst e] |}) es)
  | inr _ => raise (oserror_of ENOTDIR p)
  | inl e => raise (oserror_of e p)
  end.

(* ===================================================================== *)
(** ** Text-mode reading: UTF-8, universal newlines, line iteration *)
(* ===================================================================== *)

(** State of the incremental UTF-8 decoder between two bytes: at a
    character boundary, or inside a sequence with [n] continuation bytes
    to come, the next one within [lo..hi], and the bits read so far. *)
Inductive dstate :=
  | DStart
  | DCont (n : nat) (lo hi : Z) (acc : Z).

Definition in_range (lo hi b : Z) : bool := (lo <=? b) && (b <=? hi).

(** One byte through the strict decoder: the new state and the code
    points completed, or [None] where Python raises UnicodeDecodeError
    (stray continuation, overlong form, surrogate, beyond U+10FFFF). *)
Definition utf8_step (st : dstate) (b : Z) : option (dstate * str) :=
  match st with
  | DStart =>
      if in_range 0 127 b then Some (DStart, [b])
      else if in_range 194 223 b then Some (DCont 1 128 191 (Z.land b 31), [])
      else if b =? 224 then Some (DCont 2 160 191 (Z.land b 15), [])
      else if in_range 225 236 b || in_range 238 239 b then
        Some (DCont 2 128 191 (Z.land b 15), [])
      else if b =? 237 then Some (DCont 2 128 159 (Z.land b 15), [])
      else if b =? 240 then Some (DCont 3 144 191 (Z.land b 7), [])
      else if in_range 241 243 b then Some (DCont 3 128 191 (Z.land b 7), [])
      else if b =? 244 then Some (DCont 3 128 143 (Z.land b 7), [])
      else None
  | DCont n lo hi acc =>
      if in_range lo hi b then
        let acc' := Z.lor (Z.shiftl acc 6) (Z.land b 63) in
        match n with
        | 1%nat => Some (DStart, [acc'])
        | S n' => Some (DCont n' 128 191 acc', [])
        | O => None
        end
      else None
  end.

(** [decoder.decode(bs, final=False)] *)
Fixpoint utf8_decode (st : dstate) (bs : list Z) : option (dstate * str) :=
  match bs with
  | [] => Some (st, [])
  | b :: bs' =>
      match utf8_step st b with
      | None => None
      | Some (st', out) =>
          match utf8_decode st' bs' with
          | None => None
          | Some (st'', out') => Some (st'', out ++ out')
          end
      end
  end.

(** [decoder.decode(b"", final=True)]: a sequence cut short is an error. *)
Definition utf8_final (st : dstate) : bool :=
  match st with DStart => true | DCont _ _ _ _ => false end.

(** The whole byte string is well-formed UTF-8. *)
Definition utf8_valid (bs : list Z) : bool :=
  match utf8_decode DStart bs with
  | Some (st, _) => utf8_final st
  | None => false
  end.

(** [s.replace("\r\n", "\n").replace("\r", "\n")] *)
Fixpoint translate (s : str) : str :=
  match s with
  | [] => []
  | c :: s' =>
      if c =? CR then
        match s' with
        | d :: s'' => if d =? LF then LF :: translate s'' else LF :: translate s'
        | [] => [LF]
        end
      else c :: translate s'
  end.

Definition ends_with_cr (s : str) : bool :=
  match List.last (map Some s) None with
  | Some c => c =? CR
  | None => false
  end.

(** [IncrementalNewlineDecoder.decode] with [translate=True], after the
    byte decoder has produced [output]: a trailing "\r" is held back
    until what follows it is known. *)
Definition nl_decode (pendingcr : bool) (output : str) (final : bool) : bool * str :=
  let flush := pendingcr && (negb (bool_decide (output = [])) || final) in
  let output1 := if flush then CR :: output else output in
  let pending1 := if flush then false else pendingcr in
  if ends_with_cr output1 && negb final
  then (true, translate (removelast output1))
  else (pending1, translate output1).

(** The complete lines at the front of a buffer, each with its "\n",
    and what is left after the last "\n". *)
Fixpoint take_lines (s : str) : list str * str :=
  match s with
  | [] => ([], [])
  | c :: s' =>
      let '(ls, r) := take_lines s' in
      if c =? LF then ([c] :: ls, r)
      else match ls with
           | [] => ([], c :: r)
           | l :: ls' => ((c :: l) :: ls', r)
           end
  end.

(** The size of one read of the text layer (CPython's TextIOWrapper). *)
Definition CHUNK_SIZE : nat := Z.to_nat 8192.

Fixpoint chunks_of (fuel n : nat) (bs : list Z) : list (list Z) :=
  match fuel with
  | O => []
  | S fuel' =>
      match bs with
      | [] => []
      | _ => take n bs :: chunks_of fuel' n (drop n bs)
      end
  end.

(** The successive reads of [n] bytes that cover a file. *)
Definition chunks (n : nat) (bs : list Z) : list (list Z) :=
  chunks_of (length bs) n bs.

Definition decode_error : exn :=
  Exn UnicodeDecodeError (lit "'utf-8' codec can't decode bytes").

(** Iterating a file opened in text mode.  The result is the lines that
    successive [next(f)] return, and how the iteration ends once they
    are used up: exhausted ([None]) or a raised exception.  A chunk is
    read only when the buffer holds no complete line, and a chunk that
    fails to decode gives none of its characters. *)
Fixpoint iter_chunks (cs : list (list Z)) (st : dstate) (pendingcr : bool) (buf : str)
  : list str * option exn :=
  match cs with
  | [] =>
      if utf8_final st then
        let '(_, out) := nl_decode pendingcr [] true in
        let '(ls, r) := take_lines (buf ++ out) in
        (ls ++ (if bool_decide (r = []) then [] else [r]), None)
      else ([], Some decode_error)
  | c :: cs' =>
      match utf8_decode st c with
      | None => ([], Some decode_error)
      | Some (st', out0) =>
          let '(pendingcr', out) := nl_decode pendingcr out0 false in
          let '(ls, buf') := take_lines (buf ++ out) in
          let '(ls', fin) := iter_chunks cs' st' pendingcr' buf' in
          (ls ++ ls', fin)
      end
  end.

Definition file_iter (n : nat) (bs : list Z) : list str * option exn :=
  iter_chunks (chunks n bs) DStart false [].

(** [open(p, 'r', encoding='utf-8')]: the line iterator of the file. *)
Definition open_text (w : world) (p : Path) : io (list str * option exn) :=
  let* _ := emit (EvOpen p) in
  match stat_result w p with
  | inr (File d _ true) => ret (file_iter CHUNK_SIZE d)
  | inr (File _ _ false) => raise (oserror PermissionError "[Errno 13] Permission denied: " p)
  | inr _ => raise (oserror IsADirectoryError "[Errno 21] Is a directory: " p)
  | inl e => raise (oserror_of e p)
  end.

(** Order of [str] and of lists of them (component by component), as
    [sorted] compares paths with a common anchor. *)
Fixpoint str_cmp (a b : str) : comparison :=
  match a, b with
  | [], [] => Eq
  | [], _ :: _ => Lt
  | _ :: _, [] => Gt
  | x :: a', y :: b' =>
      match x ?= y with
      | Eq => str_cmp a' b'
      | c => c
      end
  end.

Fixpoint parts_cmp (p q : list str) : comparison :=
  match p, q with
  | [], [] => Eq
  | [], _ :: _ => Lt
  | _ :: _, [] => Gt
  | x :: p', y :: q' =>
      match str_cmp x y with
      | Eq => parts_cmp p' q'
      | c => c
      end
  end.

Definition str_le (a b : str) : Prop := str_cmp a b <> Gt.

Definition path_le (p q : Path) : Prop := parts_cmp (p_parts p) (p_parts q) <> Gt.

#[global] Instance str_le_dec a b : Decision (str_le a b).
Proof. unfold str_le. destruct (str_cmp a b); [left|left|right]; congruence. Defined.

#[global] Instance path_le_dec p q : Decision (path_le p q).
Proof.
  unfold path_le. destruct (parts_cmp (p_parts p) (p_parts q)); [left|left|right]; congruence.
Defined.

(** [sorted(paths)] *)
Definition sorted (l : list Path) : list Path := merge_sort path_le l.

(* ===================================================================== *)
(** ** The server *)
(* ===================================================================== *)

(** A JSON value as the handlers receive it. *)
Inductive value :=
  | VNone
  | VBool (b : bool)
  | VInt (n : Z)
  | VStr (s : str)
  | VList (l : list value)
  | VDict (d : list (str * value)).

(** Truth value of an object ([if not path]). *)
Definition truthy (v : value) : bool :=
  match v with
  | VNone => false
  | VBool b => b
  | VInt n => negb (n =? 0)
  | VStr s => negb (bool_decide (s = []))
  | VList l => negb (bool_decide (length l = 0%nat))
  | VDict d => negb (bool_decide (length d = 0%nat))
  end.

(** [{path}] in an f-string.  Every use comes after [resolve_path] has
    accepted [path], which it only does for a [str]. *)
Definition format_path (v : value) : str :=
  match v with VStr s => s | _ => [] end.

(** An object that [int >= .] accepts: its number and its [str()]. *)
Definition as_number (v : value) : option (Z * str) :=
  match v with
  | VInt n => Some (n, str_of_int n)
  | VBool true => Some (1, lit "True")
  | VBool false => Some (0, lit "False")
  | _ => None
  end.

Record TextContent := { type : str; text : str }.

Definition text_result (s : str) : list TextContent :=
  [ {| type := lit "text"; text := s |} ].

(** What [create_filesystem_server] closes over. *)
Record server := { allowed_path : Path }.

Definition create_filesystem_server (w : world) (allowed_directory : str) : io server :=
  let* p := Path_resolve w (Path_of allowed_directory) in
  ret {| allowed_path := p |}.

Definition access_denied : exn :=
  Exn ValueError (lit "Access denied: path outside allowed directory").

Definition resolve_path (srv : server) (w : world) (path : value) : io Path :=
  match path with
  | VStr s =>
      let* resolved := (if isabs s then Path_resolve w (Path_of s)
                        else Path_resolve w (Path_truediv (allowed_path srv) s)) in
      if negb (startswith (Path_str resolved) (Path_str (allowed_path srv)))
      then raise access_denied
      else ret resolved
  | _ => raise (Exn TypeError (lit "expected str, bytes or os.PathLike object"))
  end.

(** One line of the listing, as the loop body of [handle_list_directory]
    builds it. *)
Definition render_entry (w : world) (entry : Path) : io str :=
  let* isd := Path_is_dir w entry in
  let entry_type := if isd then lit "dir" else lit "file" in
  let* isf := Path_is_file w entry in
  let* size := (if isf then (let* st := Path_stat w entry in ret (inode_size st)) else ret 0) in
  let* isf' := Path_is_file w entry in
  ret (lit "  [" ++ entry_type ++ lit "] " ++ Path_name entry
        ++ (if isf' then lit " (" ++ str_of_int size ++ lit " bytes)" else [])).

Fixpoint for_each {A B} (f : A -> io B) (l : list A) : io (list B) :=
  match l with
  | [] => ret []
  | x :: l' => let* y := f x in let* ys := for_each f l' in ret (y :: ys)
  end.

Definition KEY_PATH : str := lit "path".

Definition KEY_MAX_LINES : str := lit "max_lines".

Definition handle_list_directory (srv : server) (w : world) (arguments : gmap str value)
  : io (list TextContent) :=
  let path := default (VStr (lit ".")) (arguments !! KEY_PATH) in
  let* dir_path := resolve_path srv w path in
  let* ex := Path_exists w dir_path in
  if negb ex then ret (text_result (lit "Directory not found: " ++ format_path path))
  else
    let* isd := Path_is_dir w dir_path in
    if negb isd then ret (text_result (lit "Not a directory: " ++ format_path path))
    else
      let* children := Path_iterdir w dir_path in
      let* entries := for_each (render_entry w) (sorted children) in
      let result :=
        match entries with
        | [] => lit "Directory " ++ Path_str dir_path ++ lit " is empty"
        | _ => lit "Contents of " ++ Path_str dir_path ++ lit ":" ++ [LF] ++ join [LF] entries
        end in
      ret (text_result result).

Definition truncation_marker (shown : str) : str :=
  [LF] ++ lit "... (truncated at " ++ shown ++ lit " lines)".

(** The [for i, line in enumerate(f)] loop of [handle_read_file], over
    the lines the iterator yields and the way it ends. *)
Fixpoint read_loop (max_lines : value) (i : Z) (items : list str) (fin : option exn)
    (lines : list str) : exn + list str :=
  match items with
  | [] => match fin with
          | None => inr lines
          | Some e => inl e
          end
  | line :: rest =>
      match as_number max_lines with
      | None => inl (Exn TypeError (lit "'>=' not supported between instances"))
      | Some (n, shown) =>
          if n <=? i then inr (lines ++ [truncation_marker shown])
          else read_loop max_lines (i + 1) rest fin (lines ++ [rstrip line])
      end
  end.

Definition is_decode_error (c : exn_class) : bool :=
  match c with UnicodeDecodeError => true | _ => false end.

Definition handle_read_file (srv : server) (w : world) (arguments : gmap str value)
  : io (list TextContent) :=
  let path := default VNone (arguments !! KEY_PATH) in
  let max_lines := default (VInt 100) (arguments !! KEY_MAX_LINES) in
  if negb (truthy path) then ret (text_result (lit "Error: path is required"))
  else
    let* file_path := resolve_path srv w path in
    let* ex := Path_exists w file_path in
    if negb ex then ret (text_result (lit "File not found: " ++ format_path path))
    else
      let* isf := Path_is_file w file_path in
      if negb isf then ret (text_result (lit "Not a file: " ++ format_path path))
      else
        try_except_cls is_decode_error
          (let* f := open_text w file_path in
           match read_loop max_lines 0 (fst f) (snd f) [] with
           | inl e => raise e
           | inr lines =>
               let content := join [LF] lines in
               ret (text_result (lit "Contents of " ++ Path_name file_path ++ lit ":"
                                  ++ [LF; LF] ++ content))
           end)
          (ret (text_result (lit "Error: " ++ format_path path ++ lit " is not a text file"))).

Definition handle_get_file_info (srv : server) (w : world) (arguments : gmap str value)
  : io (list TextContent) :=
  let path := default VNone (arguments !! KEY_PATH) in
  if negb (truthy path) then ret (text_result (lit "Error: path is required"))
  else
    let* file_path := resolve_path srv w path in
    let* ex := Path_exists w file_path in
    if negb ex then ret (text_result (lit "Path not found: " ++ format_path path))
    else
      let* st := Path_stat w file_path in
      let* isd := Path_is_dir w file_path in
      let file_type := if isd then lit "directory" else lit "file" in
      match w_isoformat w (inode_mtime st) with
      | inl e => raise e
      | inr mod_time =>
          let info :=
            [ lit "Path: " ++ Path_str file_path;
              lit "Type: " ++ file_type;
              lit "Size: " ++ str_of_int (inode_size st) ++ lit " bytes";
              lit "Modified: " ++ mod_time ] in
          ret (text_result (join [LF] info))
      end.

(** The handler registered with [@server.call_tool()]. *)
Definition call_tool (srv : server) (w : world) (name : str) (arguments : gmap str value)
  : io (list TextContent) :=
  try_except
    (if bool_decide (name = lit "list_directory") then handle_list_directory srv w arguments
     else if bool_decide (name = lit "read_file") then handle_read_file srv w arguments
     else if bool_decide (name = lit "get_file_info") then handle_get_file_info srv w arguments
     else ret (text_result (lit "Unknown tool: " ++ name)))
    (fun e => ret (text_result (lit "Error: " ++ exn_msg e))).

(* ===================================================================== *)
(** ** A small world to run the server in *)
(* ===================================================================== *)

Module Demo.

Definition text_file (s : string) : inode := File (lit s) 1700000000 true.

Definition nl : string := String (ascii_of_nat 10) EmptyString.

(** /srv/data is the served root; /srv/data_private and /etc lie
    outside it. *)
Definition fs : inode :=
  Dir [ (lit "srv",
         Dir [ (lit "data",
                Dir [ (lit "notes.txt", text_file ("alpha  " ++ nl ++ "beta" ++ nl ++ "gamma" ++ nl));
                      (lit "empty.txt", File [] 1700000100 true);
                      (lit "blob.bin", File [72; 255; 10] 1700000200 true);
                      (lit "locked.txt", File (lit "x") 1700000300 false);
                      (lit "sub", Dir [ (lit "a.txt", text_file "a") ] 1700000400 4096);
                      (lit "out", Symlink (lit "/etc"));
                      (lit "loop", Symlink (lit "loop"));
                      (lit "dangling", Symlink (lit "/srv/data/nowhere")) ]
                    1700000500 4096);
               (lit "data_private",
                Dir [ (lit "secret.txt", text_file ("s3cr3t" ++ nl)) ] 1700000600 4096) ]
             1700000700 4096);
        (lit "etc", Dir [ (lit "passwd", text_file ("root:x:0:0" ++ nl)) ] 1700000800 4096) ]
      1700000900 4096.

(** A rendering of timestamps that fails outside the years 1 to 9999
    of UTC, as [datetime.fromtimestamp] does in that zone. *)
Definition isoformat (t : Z) : exn + str :=
  if (t <? -62135596800) || (253402300799 <? t)
  then inl (Exn ValueError (lit "year is out of range"))
  else inr (lit "t=" ++ str_of_int t).

Definition w : world :=
  {| w_fs := fs; w_cwd := [lit "home"]; w_fuel := 8; w_isoformat := isoformat |}.

Definition srv : server :=
  {| allowed_path := {| p_abs := true; p_parts := [lit "srv"; lit "data"] |} |}.

(** A second tree: under the root, one file of 8192 newlines followed
    by a byte that starts no UTF-8 sequence. *)
Definition big_data : list Z := repeat LF (Z.to_nat 8192) ++ [255].

Definition fs_big : inode :=
  Dir [ (lit "srv",
         Dir [ (lit "data", Dir [ (lit "big.log", File big_data 1700001000 true) ]
                              1700001100 4096) ]
             1700001200 4096) ]
      1700001300 4096.

Definition w_big : world :=
  {| w_fs := fs_big; w_cwd := [lit "home"]; w_fuel := 8; w_isoformat := isoformat |}.

Definition args1 (p : string) : gmap str value := {[ KEY_PATH := VStr (lit p) ]}.

Definition args2 (p : string) (n : Z) : gmap str value :=
  <[ KEY_MAX_LINES := VInt n ]> (args1 p).

(** Two trees that differ only in the order in which /srv/data stores
    its entries. *)
Definition fs_ab : inode :=
  Dir [ (lit "srv",
         Dir [ (lit "data",
                Dir [ (lit "a.txt", File (lit "a") 1700002000 true);
                      (lit "b", Dir [] 1700002100 4096) ]
                    1700002200 4096) ]
             1700002300 4096) ]
      1700002400 4096.

Definition fs_ba : inode :=
  Dir [ (lit "srv",
         Dir [ (lit "data",
                Dir [ (lit "b", Dir [] 1700002100 4096);
                      (lit "a.txt", File (lit "a") 1700002000 true) ]
                    1700002200 4096) ]
             1700002300 4096) ]
      1700002400 4096.

Definition world_of (fs : inode) : world :=
  {| w_fs := fs; w_cwd := []; w_fuel := 8;
     w_isoformat := isoformat |}.

(** A name of 256 letters, one more than a directory can hold. *)
Definition long_name : str := repeat 97 256.

(** A tree whose root directory holds, beside a file, a link to a path
    with such a name in it. *)
Definition fs_long : inode :=
  Dir [ (lit "srv",
         Dir [ (lit "data",
                Dir [ (lit "a.txt", File (lit "a") 1700003000 true);
                      (lit "far", Symlink (SEP :: long_name)) ]
                    1700003100 4096) ]
             1700003200 4096) ]
      1700003300 4096.

Definition w_long : world :=
  {| w_fs := fs_long; w_cwd := [lit "home"]; w_fuel := 8; w_isoformat := isoformat |}.

(** A tree with a file last modified in the year 33658. *)
Definition fs_far : inode :=
  Dir [ (lit "srv",
         Dir [ (lit "data",
                Dir [ (lit "far.txt", File (lit "x") 1000000000000 true) ]
                    1700004100 4096) ]
             1700004200 4096) ]
      1700004300 4096.

Definition w_far : world :=
  {| w_fs := fs_far; w_cwd := [lit "home"]; w_fuel := 8; w_isoformat := isoformat |}.

(** The tree [fs_long] with the link pointing at a short name that is
    not there. *)
Definition fs_gone : inode :=
  Dir [ (lit "srv",
         Dir [ (lit "data",
                Dir [ (lit "a.txt", File (lit "a") 1700003000 true);
                      (lit "far", Symlink (lit "/nowhere")) ]
                    1700003100 4096) ]
             1700003200 4096) ]
      1700003300 4096.

Definition w_gone : world :=
  {| w_fs := fs_gone; w_cwd := [lit "home"]; w_fuel := 8; w_isoformat := isoformat |}.

(** The first world again, with the working directory /srv and the
    budget of link expansions of the kernel. *)
Definition w40 : world :=
  {| w_fs := fs; w_cwd := [lit "srv"]; w_fuel := 40; w_isoformat := isoformat |}.

End Demo.

(* ===================================================================== *)
(** ** Vocabulary of the statements: the tool-call boundary *)
(* ===================================================================== *)

(** A computation whose every normal result is one text content. *)
Definition returns_text (m : io (list TextContent)) : Prop :=
  match outcome m with
  | inl _ => True
  | inr l => exists s, l = text_result s
  end.

(* ===================================================================== *)
(** ** Vocabulary of the statements: missing path *)
(* ===================================================================== *)

Definition path_required : io (list TextContent) :=
  ([], inr (text_result (lit "Error: path is required"))).

(* ===================================================================== *)
(** ** Vocabulary of the statements: path confinement *)
(* ===================================================================== *)

(** [p] is [root] or lies below it: [root]'s components are the first
    components of [p]. *)
Fixpoint parts_prefix (root p : list str) : bool :=
  match root, p with
  | [], _ => true
  | _ :: _, [] => false
  | a :: root', b :: p' => bool_decide (a = b) && parts_prefix root' p'
  end.

Definition is_descendant (root p : Path) : bool :=
  parts_prefix (p_parts root) (p_parts p).

(** The test [resolve_path] makes on a resolved path. *)
Definition confine (srv : server) (r : exn + list str) : exn + Path :=
  match r with
  | inl e => inl e
  | inr q =>
      let resolved := {| p_abs := true; p_parts := q |} in
      if startswith (Path_str resolved) (Path_str (allowed_path srv))
      then inr resolved else inl access_denied
  end.

(** The path object [resolve_path] resolves for a string argument. *)
Definition requested (srv : server) (s : str) : Path :=
  if isabs s then Path_of s else Path_truediv (allowed_path srv) s.

Definition with_cwd (w : world) (cwd : list str) : world :=
  {| w_fs := w_fs w; w_cwd := cwd; w_fuel := w_fuel w; w_isoformat := w_isoformat w |}.

(** The argument string [s] names the path [p], and [p] is the root or
    lies below it. *)
Definition resolves_inside (srv : server) (w : world) (s : str) (p : Path) : Prop :=
  p_abs (allowed_path srv) = true
  /\ p_abs p = true
  /\ joinrealpath (w_fs w) (w_fuel w) (start_dir w (requested srv s))
       (p_parts (requested srv s)) = inr (p_parts p)
  /\ is_descendant (allowed_path srv) p = true.

(* ===================================================================== *)
(** ** Vocabulary of the statements: get_file_info *)
(* ===================================================================== *)

(** The four lines of the answer for the path [p] with the inode [st],
    [modified] being the rendering of its modification time. *)
Definition file_info_text (p : Path) (st : inode) (modified : str) : str :=
  join [LF]
    [ lit "Path: " ++ Path_str p;
      lit "Type: " ++ (if is_dir_inode st then lit "directory" else lit "file");
      lit "Size: " ++ str_of_int (inode_size st) ++ lit " bytes";
      lit "Modified: " ++ modified ].

(* ===================================================================== *)
(** ** Vocabulary of the statements: list_directory *)
(* ===================================================================== *)

(** [dir / name], as [iterdir] builds its items. *)
Definition child (dir : Path) (name : str) : Path :=
  {| p_abs := p_abs dir; p_parts := p_parts dir ++ [name] |}.

(** The line of the listing for one entry: kind, name and, for a
    regular file, size. *)
Definition entry_line (w : world) (entry : Path) : str :=
  let st := stat_of w entry in
  lit "  ["
  ++ (if from_option is_dir_inode false st then lit "dir" else lit "file")
  ++ lit "] " ++ Path_name entry
  ++ (if from_option is_file_inode false st
      then lit " (" ++ str_of_int (from_option inode_size 0 st) ++ lit " bytes)"
      else []).

(** The text [handle_list_directory] builds for a directory [p] with
    entries [names]. *)
Definition listing_text (w : world) (p : Path) (names : list str) : str :=
  match names with
  | [] => lit "Directory " ++ Path_str p ++ lit " is empty"
  | _ => lit "Contents of " ++ Path_str p ++ lit ":" ++ [LF]
         ++ join [LF] (map (entry_line w) (sorted (map (child p) names)))
  end.

(* ===================================================================== *)
(** ** Vocabulary of the statements: read_file *)
(* ===================================================================== *)

(** The text of a file read at once: decoded, newlines translated. *)
Definition decoded_text (bs : list Z) : str :=
  match utf8_decode DStart bs with
  | Some (_, out) => translate out
  | None => []
  end.

(** The lines of a text: each up to and with its "\n", and a last one
    without if the text does not end in "\n". *)
Definition lines_of (text : str) : list str :=
  let '(ls, r) := take_lines text in
  ls ++ (if bool_decide (r = []) then [] else [r]).

(** The lines of a text file. *)
Definition text_lines (bs : list Z) : list str := lines_of (decoded_text bs).

(** The lines that iterating a file yields before the iteration ends;
    for a file that fails to decode, those ahead of the failing block. *)
Definition file_lines (bs : list Z) : list str := fst (file_iter CHUNK_SIZE bs).

Definition pending (pendingcr : bool) : str := if pendingcr then [CR] else [].

Definition read_header (p : Path) : str :=
  lit "Contents of " ++ Path_name p ++ lit ":" ++ [LF; LF].

Definition not_a_text_file (s : str) : str :=
  lit "Error: " ++ s ++ lit " is not a text file".

(** The claim about the marker, as the specification words it: the
    marker is among the lines returned exactly when the file has more
    than [n] lines. *)
Definition marker_iff_more_lines (n : Z) (L lines : list str) : Prop :=
  truncation_marker (str_of_int n) ∈ lines <-> n < Z.of_nat (length L).

(* ===================================================================== *)
(** ** The rest of the server module *)
(* ===================================================================== *)

(** [is_path_allowed]: defined beside [resolve_path], never called.  It
    resolves the string as it stands, so a relative one from the
    working directory, and turns every exception into [False]. *)
Definition is_path_allowed (srv : server) (w : world) (path : value) : io bool :=
  try_except
    (match path with
     | VStr s =>
         let* resolved := Path_resolve w (Path_of s) in
         ret (startswith (Path_str resolved) (Path_str (allowed_path srv)))
     | _ => raise (Exn TypeError (lit "expected str, bytes or os.PathLike object"))
     end)
    (fun _ => ret false).

(** One entry of "properties" in a JSON schema. *)
Record SchemaProperty := {
  prop_name : str;
  prop_type : str;
  prop_description : str
}.

Record InputSchema := {
  schema_type : str;
  properties : list SchemaProperty;
  required : list str
}.

Record Tool := {
  name : str;
  description : str;
  inputSchema : InputSchema
}.

Definition relative_to (srv : server) : str :=
  lit "All paths are relative to: " ++ Path_str (allowed_path srv).

(** What the server advertises. *)
Definition list_tools (srv : server) : list Tool :=
  [ {| name := lit "list_directory";
       description :=
         lit "List files and directories in a specified path. "
         ++ lit "Returns names, types (file/directory), and sizes. "
         ++ relative_to srv;
       inputSchema :=
         {| schema_type := lit "object";
            properties :=
              [ {| prop_name := lit "path";
                   prop_type := lit "string";
                   prop_description :=
                     lit "Directory path to list (relative or absolute within allowed area). Use '.' for current directory." |} ];
            required := [lit "path"] |} |};
    {| name := lit "read_file";
       description :=
         lit "Read the contents of a text file. "
         ++ lit "Returns the file content as text. "
         ++ relative_to srv;
       inputSchema :=
         {| schema_type := lit "object";
            properties :=
              [ {| prop_name := lit "path";
                   prop_type := lit "string";
                   prop_description := lit "Path to the file to read" |};
                {| prop_name := lit "max_lines";
                   prop_type := lit "integer";
                   prop_description :=
                     lit "Maximum number of lines to read (default: 100)" |} ];
            required := [lit "path"] |} |};
    {| name := lit "get_file_info";
       description :=
         lit "Get metadata about a file or directory. "
         ++ lit "Returns size, modification time, and type.";
       inputSchema :=
         {| schema_type := lit "object";
            properties :=
              [ {| prop_name := lit "path";
                   prop_type := lit "string";
                   prop_description := lit "Path to the file or directory" |} ];
            required := [lit "path"] |} |} ].

(** The text of an answer begins with [prefix]. *)
Definition answer_begins (prefix : str) (m : io (list TextContent)) : Prop :=
  exists t s, m = (t, inr (text_result (prefix ++ s))).

(** The first character of every text a computation returns is not [c]. *)
Definition never_begins (c : Z) (m : io (list TextContent)) : Prop :=
  match outcome m with
  | inl _ => True
  | inr l => exists d s, l = text_result (d :: s) /\ d <> c
  end.

(** What [call_tool] makes of a handler. *)
Definition at_boundary (m : io (list TextContent)) : io (list TextContent) :=
  try_except m (fun e => ret (text_result (lit "Error: " ++ exn_msg e))).

(** The text [s] is not empty and its first character is not [c]. *)
Definition first_is_not (c : Z) (s : str) : bool :=
  match s with
  | d :: _ => negb (d =? c)
  | [] => false
  end.

(** An access to [p] itself or to one of its direct children. *)
Definition on_or_below (p : Path) (ev : event) : Prop :=
  match ev with
  | EvResolve _ => False
  | EvStat q | EvListdir q | EvOpen q =>
      q = p \/ exists n, q = {| p_abs := p_abs p; p_parts := p_parts p ++ [n] |}
  end.

(** An access to a path whose string begins with the string of [root]. *)
Definition accessed_below (root : Path) (ev : event) : Prop :=
  match ev with
  | EvResolve _ => False
  | EvStat q | EvListdir q | EvOpen q =>
      startswith (Path_str q) (Path_str root) = true
  end.

(** All accesses of a computation are to [p] or its direct children. *)
Definition io_under {A} (p : Path) (m : io A) : Prop :=
  Forall (on_or_below p) (fst m).

(** The shape of a trace of [call_tool]: nothing at all, or one
    resolution followed by accesses below the root. *)
Definition resolved_then_below (root : Path) (t : list event) : Prop :=
  match t with
  | [] => True
  | ev :: rest => (exists r, ev = EvResolve r) /\ Forall (accessed_below root) rest
  end.

(** A path that holds no link: every component is a proper name (not
    empty, not ".", not "..", encodable, without "/" or NUL) and no
    prefix of the path is a symbolic link. *)
Inductive plain (fs : inode) : list str -> Prop :=
  | plain_root : plain fs []
  | plain_snoc (path : list str) (c : str) :
      plain fs path ->
      is_skip c = false -> c <> PARDIR -> encodable c = true -> 0 ∉ c -> SEP ∉ c ->
      (forall t, lstat fs (path ++ [c]) <> Some (Symlink t)) ->
      plain fs (path ++ [c]).

(** [os.stat(s)] on a path string: the empty string names nothing, a
    NUL is refused before the kernel is asked, and the walk starts at
    the root or at the working directory. *)
Definition os_stat (w : world) (s : str) : option inode :=
  if bool_decide (s = []) then None
  else if bool_decide (0 ∈ s) then None
  else match namei (w_fs w) MAXSYMLINKS (if isabs s then [] else w_cwd w)
               (split SEP s) with
       | inr q => lstat (w_fs w) q
       | inl _ => None
       end.

(** [os.path.isdir(s)]: every failure of [os.stat] counts as [False]. *)
Definition os_path_isdir (w : world) (s : str) : bool :=
  from_option is_dir_inode false (os_stat w s).

(** How [main] ends its start-up: [sys.exit] after a line on stderr, or
    the server it goes on to run on stdio. *)
Inductive startup :=
  | Exit (stderr : str) (code : Z)
  | Serve (made : io server).

(** [main], up to the point where it hands the server to the stdio
    transport; [argv] is [sys.argv]. *)
Definition main (w : world) (argv : list str) : startup :=
  if (length argv <? 2)%nat then
    Exit (lit "Usage: python mcp_filesystem_server.py <allowed_directory>" ++ [LF]) 1
  else
    let allowed_directory := nth 1 argv [] in
    if negb (os_path_isdir w allowed_directory) then
      Exit (lit "Error: " ++ allowed_directory ++ lit " is not a directory" ++ [LF]) 1
    else Serve (create_filesystem_server w allowed_directory).

(** No entry of the tree is stored under a name with a NUL in it. *)
Fixpoint names_ok (n : inode) : bool :=
  match n with
  | Dir es _ _ =>
      forallb (fun e => match e with
                        | (k, v) => negb (bool_decide (0 ∈ k)) && names_ok v
                        end) es
  | _ => true
  end.

(** A path that exists as the kernel sees it: plain, and every
    component of it but the last is a directory. *)
Inductive present (fs : inode) : list str -> Prop :=
  | present_root : present fs []
  | present_snoc (path : list str) (c : str) (n : inode) :
      present fs path ->
      is_dir_inode (default (Symlink []) (lstat fs path)) = true ->
      is_skip c = false -> c <> PARDIR ->
      lstat fs (path ++ [c]) = Some n -> (forall t, n <> Symlink t) ->
      present fs (path ++ [c]).

(** * Part II: properties *)

(* ===================================================================== *)
(** ** Python strings *)
(* ===================================================================== *)

Example str_of_int_ex : str_of_int 1234 = lit "1234" /\ str_of_int 0 = lit "0" /\ str_of_int (-7) = lit "-7".
Proof. repeat split; reflexivity. Qed.

Example rstrip_ex : rstrip (lit "ab  " ++ [LF]) = lit "ab" /\ rstrip (lit " a b") = lit " a b".
Proof. split; reflexivity. Qed.

Example split_ex : split SEP (lit "/a//b") = [[]; lit "a"; []; lit "b"].
Proof. reflexivity. Qed.

(* ===================================================================== *)
(** ** Text-mode reading: UTF-8, universal newlines, line iteration *)
(* ===================================================================== *)

Example translate_ex : translate (lit "a" ++ [CR; LF] ++ lit "b" ++ [CR] ++ lit "c" ++ [CR]) = lit "a" ++ [LF] ++ lit "b" ++ [LF] ++ lit "c" ++ [LF].
Proof. reflexivity. Qed.

Example file_iter_ex :
  file_iter 4 (lit "ab" ++ [LF] ++ lit "cd" ++ [CR; LF; 195; 169])
  = ([lit "ab" ++ [LF]; lit "cd" ++ [LF]; [233]], None).
Proof. reflexivity. Qed.

Example file_iter_bad :
  file_iter 4 (lit "ab" ++ [LF] ++ lit "cd" ++ [LF; 255; LF])
  = ([lit "ab" ++ [LF]], Some decode_error).
Proof. reflexivity. Qed.

(* ===================================================================== *)
(** ** The tool-call boundary *)
(* ===================================================================== *)

Lemma returns_text_ret s : returns_text (ret (text_result s)).
Proof. unfold returns_text; simpl; eauto. Qed.

Lemma returns_text_raise e : returns_text (raise e).
Proof. exact I. Qed.

Lemma returns_text_bind {A} (m : io A) (k : A -> io (list TextContent)) :
  (forall a, returns_text (k a)) -> returns_text (io_bind m k).
Proof.
  intros Hk. destruct m as [t [e|a]]; [exact I|].
  unfold returns_text, outcome, io_bind. specialize (Hk a).
  unfold returns_text, outcome in Hk. destruct (k a) as [t' r]. exact Hk.
Qed.

Lemma returns_text_if (b : bool) (m1 m2 : io (list TextContent)) :
  returns_text m1 -> returns_text m2 -> returns_text (if b then m1 else m2).
Proof. destruct b; auto. Qed.

Lemma returns_text_try_cls cls (m h : io (list TextContent)) :
  returns_text m -> returns_text h -> returns_text (try_except_cls cls m h).
Proof.
  intros Hm Hh. destruct m as [t [e|a]]; unfold try_except_cls.
  - destruct (cls (exn_cls e)); [|exact I].
    unfold returns_text, outcome in *. destruct h as [t' r]. exact Hh.
  - exact Hm.
Qed.

Create HintDb text discriminated.

#[global] Hint Resolve returns_text_ret returns_text_raise returns_text_bind
  returns_text_if returns_text_try_cls : text.

Lemma handle_list_directory_text srv w args :
  returns_text (handle_list_directory srv w args).
Proof.
  unfold handle_list_directory.
  apply returns_text_bind; intros p. apply returns_text_bind; intros ex.
  apply returns_text_if; [auto with text|].
  apply returns_text_bind; intros isd.
  apply returns_text_if; [auto with text|].
  apply returns_text_bind; intros ch. apply returns_text_bind; intros es.
  auto with text.
Qed.

Lemma handle_read_file_text srv w args :
  returns_text (handle_read_file srv w args).
Proof.
  unfold handle_read_file.
  apply returns_text_if; [auto with text|].
  apply returns_text_bind; intros p. apply returns_text_bind; intros ex.
  apply returns_text_if; [auto with text|].
  apply returns_text_bind; intros isf.
  apply returns_text_if; [auto with text|].
  apply returns_text_try_cls; [|auto with text].
  apply returns_text_bind; intros f.
  destruct (read_loop _ _ _ _ _); auto with text.
Qed.

Lemma handle_get_file_info_text srv w args :
  returns_text (handle_get_file_info srv w args).
Proof.
  unfold handle_get_file_info.
  apply returns_text_if; [auto with text|].
  apply returns_text_bind; intros p. apply returns_text_bind; intros ex.
  apply returns_text_if; [auto with text|].
  apply returns_text_bind; intros st. apply returns_text_bind; intros isd.
  destruct (w_isoformat w (inode_mtime st)); auto with text.
Qed.

(** C2.  Whatever the tool name and the arguments, [call_tool] returns
    normally, with a list holding one content of type "text": no
    exception of a handler passes the dispatcher. *)
Theorem call_tool_always_text (srv : server) (w : world) (name : str)
    (arguments : gmap str value) :
  exists t s, call_tool srv w name arguments = (t, inr (text_result s))
              /\ Forall (fun c => type c = lit "text") (text_result s).
Proof.
  assert (H : returns_text
    (if bool_decide (name = lit "list_directory") then handle_list_directory srv w arguments
     else if bool_decide (name = lit "read_file") then handle_read_file srv w arguments
     else if bool_decide (name = lit "get_file_info") then handle_get_file_info srv w arguments
     else ret (text_result (lit "Unknown tool: " ++ name)))).
  { apply returns_text_if; [apply handle_list_directory_text|].
    apply returns_text_if; [apply handle_read_file_text|].
    apply returns_text_if; [apply handle_get_file_info_text|].
    apply returns_text_ret. }
  unfold call_tool, try_except.
  destruct (if bool_decide (name = lit "list_directory") then _ else _) as [t [e|l]].
  - exists (t ++ []), (lit "Error: " ++ exn_msg e). split; [reflexivity|].
    repeat constructor.
  - destruct H as [s ->]. exists t, s. split; [reflexivity|]. repeat constructor.
Qed.

(** C7.  A name other than the three tools gives the text
    "Unknown tool: <name>", without raising and without touching the
    filesystem. *)
Theorem call_tool_unknown (srv : server) (w : world) (name : str)
    (arguments : gmap str value) :
  name <> lit "list_directory" -> name <> lit "read_file" ->
  name <> lit "get_file_info" ->
  call_tool srv w name arguments
  = ([], inr (text_result (lit "Unknown tool: " ++ name))).
Proof.
  intros H1 H2 H3. unfold call_tool.
  rewrite !bool_decide_eq_false_2 by assumption. reflexivity.
Qed.

Lemma call_tool_unknown_witness :
  call_tool Demo.srv Demo.w (lit "write_file") (Demo.args1 "notes.txt")
  = ([], inr (text_result (lit "Unknown tool: write_file"))).
Proof.
  apply (call_tool_unknown Demo.srv Demo.w (lit "write_file")); vm_compute; discriminate.
Defined.

(* ===================================================================== *)
(** ** Missing path, default line cap *)
(* ===================================================================== *)

(** C9.  With the "path" key absent, or present with the empty string,
    [read_file] and [get_file_info] answer "Error: path is required";
    the empty trace shows that nothing was resolved and the filesystem
    was not touched.  The same holds through [call_tool]. *)
Theorem path_is_required (srv : server) (w : world) (arguments : gmap str value) :
  arguments !! KEY_PATH = None \/ arguments !! KEY_PATH = Some (VStr []) ->
  handle_read_file srv w arguments = path_required
  /\ handle_get_file_info srv w arguments = path_required
  /\ call_tool srv w (lit "read_file") arguments = path_required
  /\ call_tool srv w (lit "get_file_info") arguments = path_required.
Proof.
  intros H.
  assert (Hr : handle_read_file srv w arguments = path_required).
  { unfold handle_read_file. destruct H as [-> | ->]; reflexivity. }
  assert (Hg : handle_get_file_info srv w arguments = path_required).
  { unfold handle_get_file_info. destruct H as [-> | ->]; reflexivity. }
  repeat split; try assumption.
  - unfold call_tool. simpl. rewrite Hr. reflexivity.
  - unfold call_tool. simpl. rewrite Hg. reflexivity.
Qed.

Lemma path_is_required_witness :
  handle_read_file Demo.srv Demo.w ∅ = path_required
  /\ handle_get_file_info Demo.srv Demo.w {[ KEY_PATH := VStr [] ]} = path_required.
Proof.
  split.
  - apply (path_is_required Demo.srv Demo.w ∅). left. reflexivity.
  - apply (path_is_required Demo.srv Demo.w {[ KEY_PATH := VStr [] ]}).
    right. reflexivity.
Defined.

Lemma key_path_ne_max_lines : KEY_MAX_LINES <> KEY_PATH.
Proof. vm_compute. discriminate. Qed.

(** C10.  A call of [read_file] without "max_lines" behaves as the same
    call with "max_lines" set to 100: same result, same accesses. *)
Theorem max_lines_default_100 (srv : server) (w : world) (arguments : gmap str value) :
  arguments !! KEY_MAX_LINES = None ->
  handle_read_file srv w arguments
  = handle_read_file srv w (<[ KEY_MAX_LINES := VInt 100 ]> arguments)
  /\ call_tool srv w (lit "read_file") arguments
     = call_tool srv w (lit "read_file") (<[ KEY_MAX_LINES := VInt 100 ]> arguments).
Proof.
  intros H.
  assert (E : handle_read_file srv w arguments
              = handle_read_file srv w (<[ KEY_MAX_LINES := VInt 100 ]> arguments)).
  { unfold handle_read_file.
    rewrite lookup_insert_eq, (lookup_insert_ne _ _ _ _ key_path_ne_max_lines), H.
    reflexivity. }
  split; [exact E|].
  unfold call_tool. simpl. rewrite E. reflexivity.
Qed.

Lemma max_lines_default_100_witness :
  handle_read_file Demo.srv Demo.w (Demo.args1 "notes.txt")
  = handle_read_file Demo.srv Demo.w (Demo.args2 "notes.txt" 100).
Proof.
  apply (max_lines_default_100 Demo.srv Demo.w (Demo.args1 "notes.txt")).
  vm_compute. reflexivity.
Defined.

(* ===================================================================== *)
(** ** Path confinement *)
(* ===================================================================== *)

Lemma resolve_path_str (srv : server) (w : world) (s : str) :
  resolve_path srv w (VStr s)
  = ([EvResolve (requested srv s)],
     confine srv (joinrealpath (w_fs w) (w_fuel w)
                    (start_dir w (requested srv s)) (p_parts (requested srv s)))).
Proof.
  unfold resolve_path, requested, confine.
  destruct (isabs s); unfold Path_resolve, io_bind, emit, raise, ret;
    destruct (joinrealpath _ _ _ _) as [e|q]; try reflexivity;
    cbv beta iota; destruct (startswith _ _); reflexivity.
Qed.

(** When the string test fails, the handler stops at once: the only
    access recorded is the resolution itself. *)
Lemma resolve_path_denied (srv : server) (w : world) (s : str) (q : list str) :
  joinrealpath (w_fs w) (w_fuel w) (start_dir w (requested srv s))
    (p_parts (requested srv s)) = inr q ->
  startswith (Path_str (MkPath true q)) (Path_str (allowed_path srv)) = false ->
  resolve_path srv w (VStr s) = ([EvResolve (requested srv s)], inl access_denied).
Proof.
  intros Hq Hs. rewrite resolve_path_str, Hq. unfold confine. rewrite Hs. reflexivity.
Qed.

(** The server on the small world: a link that leaves the root and a
    path that climbs out of it are refused after the resolution alone;
    a link that loops and a file without read permission give the
    text of the exception. *)
Example link_out_of_root_denied :
  call_tool Demo.srv Demo.w (lit "read_file") (Demo.args1 "out/passwd")
  = ([EvResolve {| p_abs := true;
                   p_parts := [lit "srv"; lit "data"; lit "out"; lit "passwd"] |}],
     inr (text_result (lit "Error: Access denied: path outside allowed directory"))).
Proof. vm_compute. reflexivity. Qed.

Example dotdot_out_of_root_denied :
  call_tool Demo.srv Demo.w (lit "get_file_info") (Demo.args1 "sub/../../../etc/passwd")
  = ([EvResolve {| p_abs := true;
                   p_parts := [lit "srv"; lit "data"; lit "sub"; lit ".."; lit "..";
                               lit ".."; lit "etc"; lit "passwd"] |}],
     inr (text_result (lit "Error: Access denied: path outside allowed directory"))).
Proof. vm_compute. reflexivity. Qed.

Example symlink_loop_is_text :
  (exists e, outcome (handle_list_directory Demo.srv Demo.w (Demo.args1 "loop")) = inl e
             /\ exn_cls e = RuntimeError)
  /\ exists s, outcome (call_tool Demo.srv Demo.w (lit "list_directory") (Demo.args1 "loop"))
               = inr (text_result (lit "Error: " ++ s)).
Proof. split; eexists; vm_compute; [split|]; reflexivity. Qed.

Example unreadable_file_is_text :
  outcome (call_tool Demo.srv Demo.w (lit "read_file") (Demo.args1 "locked.txt"))
  = inr (text_result (lit "Error: [Errno 13] Permission denied: '/srv/data/locked.txt'")).
Proof. vm_compute. reflexivity. Qed.

Example root_listing :
  outcome (call_tool Demo.srv Demo.w (lit "list_directory") ∅)
  = inr (text_result
           (join [LF]
              [ lit "Contents of /srv/data:";
                lit "  [file] blob.bin (3 bytes)";
                lit "  [file] dangling";
                lit "  [file] empty.txt (0 bytes)";
                lit "  [file] locked.txt (1 bytes)";
                lit "  [file] loop";
                lit "  [file] notes.txt (19 bytes)";
                lit "  [dir] out";
                lit "  [dir] sub" ])).
Proof. vm_compute. reflexivity. Qed.

(** C1, on the code.  The server rooted at /srv/data is asked to read
    /srv/data_private/secret.txt.  The path resolves to itself and is
    not a descendant of the root, yet its string starts with the string
    of the root: the file is opened and its content returned. *)
Theorem sibling_with_root_prefix_is_read :
  let secret := {| p_abs := true;
                   p_parts := [lit "srv"; lit "data_private"; lit "secret.txt"] |} in
  outcome (Path_resolve Demo.w (Path_of (lit "/srv/data_private/secret.txt"))) = inr secret
  /\ is_descendant (allowed_path Demo.srv) secret = false
  /\ call_tool Demo.srv Demo.w (lit "read_file") (Demo.args1 "/srv/data_private/secret.txt")
     = ([EvResolve secret; EvStat secret; EvStat secret; EvOpen secret],
        inr (text_result (lit "Contents of secret.txt:" ++ [LF; LF] ++ lit "s3cr3t"))).
Proof. vm_compute. repeat split. Qed.

Lemma create_filesystem_server_abs (w : world) (dir : str) (srv : server) :
  outcome (create_filesystem_server w dir) = inr srv -> p_abs (allowed_path srv) = true.
Proof.
  unfold create_filesystem_server, Path_resolve, io_bind, emit, outcome. simpl.
  destruct (joinrealpath _ _ _ _); simpl; intros H; inversion H; reflexivity.
Qed.

Lemma joinrealpath_cons (fs : inode) (fuel : nat) (path rest : list str) (name : str) :
  joinrealpath fs fuel path (name :: rest)
  = if is_skip name then joinrealpath fs fuel path rest
    else if bool_decide (name = PARDIR) then joinrealpath fs fuel (parent path) rest
    else if negb (encodable name) then
      inl (Exn UnicodeEncodeError (lit "surrogates not allowed"))
    else if bool_decide (0 ∈ name) then inl (Exn ValueError (lit "embedded null byte"))
    else match lstat fs (path ++ [name]) with
         | Some (Symlink t) =>
             match fuel with
             | O => inl (Exn RuntimeError (lit "Symlink loop"))
             | S fuel' =>
                 joinrealpath fs fuel' (if isabs t then [] else path) (split SEP t ++ rest)
             end
         | _ => joinrealpath fs fuel (path ++ [name]) rest
         end.
Proof. destruct fuel; reflexivity. Qed.

(** Walking the components of a directory that holds no link, no dot
    component and no NUL leads to that directory: a path given below
    such a root is walked from the root. *)
Lemma joinrealpath_from_root (fs : inode) (fuel : nat) (root : list str) :
  forall (base rest : list str),
  (forall pre name post, root = pre ++ name :: post ->
     is_skip name = false /\ name <> PARDIR /\ encodable name = true /\ (0 ∉ name)
     /\ forall t, lstat fs (base ++ pre ++ [name]) <> Some (Symlink t)) ->
  joinrealpath fs fuel base (root ++ rest) = joinrealpath fs fuel (base ++ root) rest.
Proof.
  induction root as [|c root IH]; intros base rest Hplain.
  - rewrite app_nil_r. reflexivity.
  - destruct (Hplain [] c root eq_refl) as (Hs & Hp & He & Hz & Hl).
    cbn [app]. rewrite joinrealpath_cons, Hs.
    rewrite bool_decide_eq_false_2 by exact Hp. rewrite He. cbn [negb].
    rewrite bool_decide_eq_false_2 by exact Hz.
    replace (base ++ c :: root) with ((base ++ [c]) ++ root)
      by (rewrite <- app_assoc; reflexivity).
    assert (Hgo : joinrealpath fs fuel (base ++ [c]) (root ++ rest)
                  = joinrealpath fs fuel ((base ++ [c]) ++ root) rest).
    { apply IH. intros pre name post E.
      destruct (Hplain (c :: pre) name post) as (H1 & H2 & H3 & H4 & H5);
        [rewrite E; reflexivity|].
      repeat split; try assumption.
      intros t. rewrite <- app_assoc. exact (H5 t). }
    specialize (Hl). cbn [app] in Hl.
    destruct (lstat fs (base ++ [c])) as [[d mt r|es mt sz|t]|] eqn:E;
      try exact Hgo.
    exfalso. exact (Hl t eq_refl).
Qed.

(** C4.  For a relative argument [s] the server resolves the absolute
    path made of the root's components followed by those of [s]; the
    working directory of the process has no part in it: with any other
    working directory the accesses and the result are the same. *)
Theorem relative_path_resolved_against_root (srv : server) (w : world) (s : str)
    (cwd' : list str) :
  p_abs (allowed_path srv) = true ->
  isabs s = false ->
  resolve_path srv w (VStr s)
  = ([EvResolve {| p_abs := true; p_parts := p_parts (allowed_path srv) ++ parts_of s |}],
     confine srv (joinrealpath (w_fs w) (w_fuel w) []
                    (p_parts (allowed_path srv) ++ parts_of s)))
  /\ resolve_path srv (with_cwd w cwd') (VStr s) = resolve_path srv w (VStr s).
Proof.
  intros Habs Hrel. rewrite !resolve_path_str.
  unfold requested, Path_truediv, start_dir. rewrite Hrel, Habs. simpl.
  split; reflexivity.
Qed.

Lemma relative_path_resolved_against_root_witness :
  resolve_path Demo.srv (with_cwd Demo.w [lit "etc"]) (VStr (lit "sub/../notes.txt"))
  = resolve_path Demo.srv Demo.w (VStr (lit "sub/../notes.txt")).
Proof.
  apply (relative_path_resolved_against_root Demo.srv Demo.w (lit "sub/../notes.txt")
           [lit "etc"]); reflexivity.
Defined.

Lemma startswith_nil (s : str) : startswith s [] = true.
Proof. destruct s; reflexivity. Qed.

Lemma startswith_app (a x y : str) : startswith (a ++ x) (a ++ y) = startswith x y.
Proof. induction a as [|c a IH]; simpl; [reflexivity|]. rewrite Z.eqb_refl. exact IH. Qed.

Lemma startswith_app_l (a x : str) : startswith (a ++ x) a = true.
Proof.
  rewrite <- (app_nil_r a) at 2. rewrite startswith_app. apply startswith_nil.
Qed.

Lemma join_cons2 (sep x y : str) (l : list str) :
  join sep (x :: y :: l) = x ++ sep ++ join sep (y :: l).
Proof. reflexivity. Qed.

(** A descendant passes the string test of [resolve_path]. *)
Lemma parts_prefix_startswith (r q : list str) :
  parts_prefix r q = true -> startswith (join [SEP] q) (join [SEP] r) = true.
Proof.
  revert q. induction r as [|a r IH]; intros q H.
  - apply startswith_nil.
  - destruct q as [|b q]; [discriminate|]. simpl in H.
    apply andb_prop in H as [Hab Hrq]. apply bool_decide_eq_true_1 in Hab. subst b.
    destruct r as [|d r].
    + destruct q as [|c q]; simpl.
      * rewrite <- (app_nil_r a) at 1. apply startswith_app_l.
      * apply startswith_app_l.
    + destruct q as [|c q]; [discriminate|].
      rewrite !join_cons2, !startswith_app. apply IH. exact Hrq.
Qed.

Lemma resolve_path_inside (srv : server) (w : world) (s : str) (p : Path) :
  resolves_inside srv w s p ->
  resolve_path srv w (VStr s) = ([EvResolve (requested srv s)], inr p).
Proof.
  intros (Hr & Hp & Hq & Hd). rewrite resolve_path_str, Hq. unfold confine.
  destruct p as [ab q]. simpl in *. subst ab.
  unfold is_descendant in Hd. simpl in Hd.
  unfold Path_str. rewrite Hr. cbn [p_abs p_parts startswith].
  rewrite Z.eqb_refl, parts_prefix_startswith by exact Hd. reflexivity.
Qed.

Lemma outcome_bind {A B} (m : io A) (k : A -> io B) :
  outcome (io_bind m k)
  = match outcome m with inl e => inl e | inr a => outcome (k a) end.
Proof.
  destruct m as [t [e|a]]; simpl; [reflexivity|]. unfold outcome. simpl.
  destruct (k a); reflexivity.
Qed.

(* ===================================================================== *)
(** ** get_file_info *)
(* ===================================================================== *)

Lemma stat_of_Some (w : world) (p : Path) (st : inode) :
  stat_of w p = Some st <-> stat_result w p = inr st.
Proof.
  unfold stat_of. destruct (stat_result w p) as [e|n]; split; intros H;
    inversion H; reflexivity.
Qed.

Lemma stat_of_None (w : world) (p : Path) (e : errno) :
  stat_result w p = inl e -> stat_of w p = None.
Proof. unfold stat_of. intros ->. reflexivity. Qed.

Lemma stat_passes_Some (w : world) (p : Path) (st : inode) :
  stat_of w p = Some st -> stat_passes w p = true.
Proof. intros H. apply stat_of_Some in H. unfold stat_passes. rewrite H. reflexivity. Qed.

Lemma stat_passes_ignored (w : world) (p : Path) (e : errno) :
  stat_result w p = inl e -> ignore_error e = true -> stat_passes w p = true.
Proof. intros H He. unfold stat_passes. rewrite H. exact He. Qed.

(** [exists], [is_dir] and [is_file] where the kernel answers or fails
    with an ignored error, and where it fails with another one. *)
Lemma stat_test_passes (test : inode -> bool) (w : world) (p : Path) :
  stat_passes w p = true ->
  stat_test test w p = ([EvStat p], inr (from_option test false (stat_of w p))).
Proof.
  unfold stat_passes, stat_test, stat_of, io_bind, emit, ret.
  destruct (stat_result w p) as [e|n]; [|reflexivity].
  intros ->. reflexivity.
Qed.

Lemma stat_test_refused (test : inode -> bool) (w : world) (p : Path) (e : errno) :
  stat_result w p = inl e -> ignore_error e = false ->
  stat_test test w p = ([EvStat p], inl (oserror_of e p)).
Proof.
  intros H He. unfold stat_test, io_bind, emit, raise. rewrite H, He. reflexivity.
Qed.

Lemma Path_stat_Some (w : world) (p : Path) (st : inode) :
  stat_of w p = Some st -> Path_stat w p = ([EvStat p], inr st).
Proof.
  intros H. apply stat_of_Some in H. unfold Path_stat, io_bind, emit, ret.
  rewrite H. reflexivity.
Qed.

(** C6, amended.  For a path argument naming something inside the root:
    - if it exists and its modification time can be rendered,
      [get_file_info] returns four lines giving the resolved path, the
      kind (directory or file), the size in bytes and the modification
      time;
    - if it exists and [datetime.fromtimestamp] raises on its
      modification time, the handler raises that exception, after the
      three calls of [stat];
    - if the kernel finds nothing there (a component is missing or is
      not a directory, or there are too many links), it returns
      "Path not found: <argument>";
    - if the kernel refuses the path with another error (a name of more
      than NAME_MAX bytes), [exists] lets the OSError pass and the
      handler raises it. *)
Theorem get_file_info_reports (srv : server) (w : world) (arguments : gmap str value)
    (s : str) (p : Path) :
  arguments !! KEY_PATH = Some (VStr s) -> s <> [] ->
  resolves_inside srv w s p ->
  (forall st modified,
     stat_of w p = Some st -> w_isoformat w (inode_mtime st) = inr modified ->
     handle_get_file_info srv w arguments
     = ([EvResolve (requested srv s); EvStat p; EvStat p; EvStat p],
        inr (text_result (file_info_text p st modified))))
  /\ (forall st e,
        stat_of w p = Some st -> w_isoformat w (inode_mtime st) = inl e ->
        handle_get_file_info srv w arguments
        = ([EvResolve (requested srv s); EvStat p; EvStat p; EvStat p], inl e))
  /\ (forall e, stat_result w p = inl e -> ignore_error e = true ->
        handle_get_file_info srv w arguments
        = ([EvResolve (requested srv s); EvStat p],
           inr (text_result (lit "Path not found: " ++ s))))
  /\ (forall e, stat_result w p = inl e -> ignore_error e = false ->
        handle_get_file_info srv w arguments
        = ([EvResolve (requested srv s); EvStat p], inl (oserror_of e p))).
Proof.
  intros Ha Hs Hin. apply resolve_path_inside in Hin.
  assert (Ht : truthy (VStr s) = true).
  { simpl. rewrite bool_decide_eq_false_2 by exact Hs. reflexivity. }
  assert (Hgo : handle_get_file_info srv w arguments
                = let '(t, r) :=
                    (let* ex := Path_exists w p in
                     if negb ex
                     then ret (text_result (lit "Path not found: " ++ s))
                     else
                       let* st := Path_stat w p in
                       let* isd := Path_is_dir w p in
                       match w_isoformat w (inode_mtime st) with
                       | inl e => raise e
                       | inr mod_time =>
                           ret (text_result
                                  (join [LF]
                                     [ lit "Path: " ++ Path_str p;
                                       lit "Type: " ++ (if isd then lit "directory"
                                                        else lit "file");
                                       lit "Size: " ++ str_of_int (inode_size st)
                                       ++ lit " bytes";
                                       lit "Modified: " ++ mod_time ]))
                       end) in
                  (EvResolve (requested srv s) :: t, r)).
  { unfold handle_get_file_info. rewrite Ha. simpl default. rewrite Ht, Hin. reflexivity. }
  rewrite Hgo. unfold Path_exists, Path_is_dir.
  split; [|split; [|split]].
  - intros st modified Hst Hm.
    rewrite !(stat_test_passes _ w p (stat_passes_Some _ _ _ Hst)).
    rewrite (Path_stat_Some _ _ _ Hst), Hst.
    unfold io_bind, ret. cbn [from_option negb]. rewrite Hm. reflexivity.
  - intros st e Hst Hm.
    rewrite !(stat_test_passes _ w p (stat_passes_Some _ _ _ Hst)).
    rewrite (Path_stat_Some _ _ _ Hst), Hst.
    unfold io_bind, ret, raise. cbn [from_option negb]. rewrite Hm. reflexivity.
  - intros e He Hi.
    rewrite !(stat_test_passes _ w p (stat_passes_ignored _ _ _ He Hi)).
    rewrite (stat_of_None _ _ _ He). reflexivity.
  - intros e He Hi.
    rewrite !(stat_test_refused _ w p e He Hi). reflexivity.
Qed.

Lemma get_file_info_reports_witness :
  let p := {| p_abs := true; p_parts := [lit "srv"; lit "data"; lit "sub"] |} in
  handle_get_file_info Demo.srv Demo.w (Demo.args1 "sub")
  = ([EvResolve p; EvStat p; EvStat p; EvStat p],
     inr (text_result (lit "Path: /srv/data/sub" ++ [LF] ++ lit "Type: directory" ++ [LF]
                       ++ lit "Size: 4096 bytes" ++ [LF] ++ lit "Modified: t=1700000400"))).
Proof.
  intros p.
  destruct (get_file_info_reports Demo.srv Demo.w (Demo.args1 "sub") (lit "sub") p)
    as [Hex _].
  - reflexivity.
  - discriminate.
  - repeat split.
  - exact (Hex (Dir [(lit "a.txt", Demo.text_file "a")] 1700000400 4096)
             (lit "t=1700000400") eq_refl eq_refl).
Defined.

(** C6, as the specification words it: a path that does not exist is
    answered with a "not found" text.  Under the root /srv/data the
    argument of 256 letters names nothing, and the kernel refuses it as
    too long a name: the handler raises the OSError, and the answer of
    [call_tool] is the text of that error, not "Path not found: ...". *)
Lemma get_file_info_name_too_long :
  let s := Demo.long_name in
  let p := {| p_abs := true; p_parts := [lit "srv"; lit "data"; s] |} in
  let arguments : gmap str value := {[ KEY_PATH := VStr s ]} in
  resolves_inside Demo.srv Demo.w s p
  /\ stat_of Demo.w p = None
  /\ handle_get_file_info Demo.srv Demo.w arguments
     = ([EvResolve p; EvStat p], inl (oserror_of ENAMETOOLONG p))
  /\ outcome (call_tool Demo.srv Demo.w (lit "get_file_info") arguments)
     = inr (text_result (lit "Error: " ++ exn_msg (oserror_of ENAMETOOLONG p)))
  /\ outcome (call_tool Demo.srv Demo.w (lit "get_file_info") arguments)
     <> inr (text_result (lit "Path not found: " ++ s)).
Proof.
  intros s p arguments.
  assert (Hc : outcome (call_tool Demo.srv Demo.w (lit "get_file_info") arguments)
               = inr (text_result (lit "Error: " ++ exn_msg (oserror_of ENAMETOOLONG p)))).
  { vm_compute. reflexivity. }
  split; [|split; [|split; [|split]]].
  - repeat split.
  - vm_compute. reflexivity.
  - vm_compute. reflexivity.
  - exact Hc.
  - rewrite Hc. intros E. vm_compute in E. discriminate E.
Qed.

(** The same for a file that exists: one whose modification time lies
    beyond the year 9999 is answered with the text of the exception that
    [datetime.fromtimestamp] raises. *)
Example get_file_info_mtime_out_of_range :
  let p := {| p_abs := true; p_parts := [lit "srv"; lit "data"; lit "far.txt"] |} in
  stat_of Demo.w_far p = Some (File (lit "x") 1000000000000 true)
  /\ handle_get_file_info Demo.srv Demo.w_far (Demo.args1 "far.txt")
     = ([EvResolve p; EvStat p; EvStat p; EvStat p],
        inl (Exn ValueError (lit "year is out of range")))
  /\ outcome (call_tool Demo.srv Demo.w_far (lit "get_file_info") (Demo.args1 "far.txt"))
     = inr (text_result (lit "Error: year is out of range")).
Proof. vm_compute. repeat split. Qed.

(* ===================================================================== *)
(** ** list_directory *)
(* ===================================================================== *)

Lemma render_entry_outcome (w : world) (entry : Path) :
  stat_passes w entry = true ->
  outcome (render_entry w entry) = inr (entry_line w entry).
Proof.
  intros H. unfold render_entry, entry_line, Path_is_dir, Path_is_file.
  rewrite !(stat_test_passes _ w entry H).
  destruct (stat_of w entry) as [[d mt r|es mt sz|t]|] eqn:E; try reflexivity.
  rewrite (Path_stat_Some _ _ _ E). reflexivity.
Qed.

Lemma render_entry_refused (w : world) (entry : Path) (e : errno) :
  stat_result w entry = inl e -> ignore_error e = false ->
  outcome (render_entry w entry) = inl (oserror_of e entry).
Proof.
  intros H He. unfold render_entry, Path_is_dir.
  rewrite (stat_test_refused _ w entry e H He). reflexivity.
Qed.

Lemma for_each_render (w : world) (l : list Path) :
  Forall (fun x => stat_passes w x = true) l ->
  outcome (for_each (render_entry w) l) = inr (map (entry_line w) l).
Proof.
  induction 1 as [|x l Hx Hl IH]; [reflexivity|].
  cbn [for_each map]. rewrite outcome_bind, render_entry_outcome by exact Hx.
  rewrite outcome_bind, IH. reflexivity.
Qed.

(** The loop stops at the first entry on which [is_dir] raises. *)
Lemma for_each_refused (w : world) (l : list Path) :
  Exists (fun x => stat_passes w x = false) l ->
  exists x e, x ∈ l /\ stat_result w x = inl e /\ ignore_error e = false
              /\ outcome (for_each (render_entry w) l) = inl (oserror_of e x).
Proof.
  induction l as [|x l IH]; intros H; [inversion H|].
  destruct (stat_passes w x) eqn:Hx.
  - assert (Hl : Exists (fun x => stat_passes w x = false) l).
    { inversion H as [? ? Hx'|]; subst; [congruence|assumption]. }
    destruct (IH Hl) as (y & e & Hy & Hr & He & Ho).
    exists y, e. repeat split; try assumption; [right; exact Hy|].
    cbn [for_each]. rewrite outcome_bind, render_entry_outcome by exact Hx.
    rewrite outcome_bind, Ho. reflexivity.
  - unfold stat_passes in Hx. destruct (stat_result w x) as [e|n] eqn:Hr; [|discriminate].
    exists x, e. repeat split; try assumption; [left|].
    cbn [for_each]. rewrite outcome_bind, (render_entry_refused _ _ _ Hr Hx). reflexivity.
Qed.

Lemma Path_name_child (dir : Path) (name : str) : Path_name (child dir name) = name.
Proof. unfold Path_name, child. simpl. apply last_last. Qed.

Lemma str_cmp_refl (a : str) : str_cmp a a = Eq.
Proof. induction a as [|c a IH]; simpl; [reflexivity|]. rewrite Z.compare_refl. exact IH. Qed.

Lemma str_cmp_antisym (a b : str) : str_cmp b a = CompOpp (str_cmp a b).
Proof.
  revert b. induction a as [|x a IH]; intros [|y b]; simpl; try reflexivity.
  rewrite (Z.compare_antisym x y). destruct (x ?= y); simpl; auto.
Qed.

Lemma parts_cmp_antisym (p q : list str) : parts_cmp q p = CompOpp (parts_cmp p q).
Proof.
  revert q. induction p as [|x p IH]; intros [|y q]; simpl; try reflexivity.
  rewrite (str_cmp_antisym x y). destruct (str_cmp x y); simpl; auto.
Qed.

#[global] Instance path_le_total : Total path_le.
Proof.
  intros p q. unfold path_le. rewrite (parts_cmp_antisym (p_parts p) (p_parts q)).
  destruct (parts_cmp (p_parts p) (p_parts q)); simpl; [left|left|right]; congruence.
Qed.

Lemma parts_cmp_siblings (d : list str) (a b : str) :
  parts_cmp (d ++ [a]) (d ++ [b]) = str_cmp a b.
Proof.
  induction d as [|x d IH]; simpl.
  - destruct (str_cmp a b); reflexivity.
  - rewrite str_cmp_refl. exact IH.
Qed.

Lemma Sorted_map_on {A B} (R1 : relation A) (R2 : relation B) (f : A -> B) (l : list A) :
  (forall x y, x ∈ l -> y ∈ l -> R1 x y -> R2 (f x) (f y)) ->
  Sorted R1 l -> Sorted R2 (map f l).
Proof.
  intros Hmono Hs. induction Hs as [|x l Hs IH Hhd]; simpl; constructor.
  - apply IH. intros a b Ha Hb. apply Hmono; right; assumption.
  - destruct Hhd as [|y l Hxy]; simpl; constructor.
    apply Hmono; [left | right; left | exact Hxy].
Qed.

(** What [sorted(dir.iterdir())] is: the same entries, in the order of
    their names. *)
Lemma sorted_children (dir : Path) (names : list str) :
  map Path_name (sorted (map (child dir) names)) ≡ₚ names
  /\ Sorted str_le (map Path_name (sorted (map (child dir) names))).
Proof.
  split.
  - unfold sorted. rewrite merge_sort_Permutation, map_map.
    erewrite map_ext; [rewrite map_id; reflexivity|].
    intros a. apply Path_name_child.
  - apply (Sorted_map_on path_le); [|apply Sorted_merge_sort; apply _].
    intros x y Hx Hy Hle. unfold sorted in Hx, Hy.
    rewrite merge_sort_Permutation in Hx, Hy.
    apply list_elem_of_In, in_map_iff in Hx as (a & <- & _).
    apply list_elem_of_In, in_map_iff in Hy as (b & <- & _).
    rewrite !Path_name_child. unfold path_le, child in Hle. simpl in Hle.
    rewrite parts_cmp_siblings in Hle. exact Hle.
Qed.

Lemma Path_iterdir_dir (w : world) (p : Path) es mt sz :
  stat_of w p = Some (Dir es mt sz) ->
  Path_iterdir w p = ([EvListdir p], inr (map (child p) (map fst es))).
Proof.
  intros H. apply stat_of_Some in H. unfold Path_iterdir, io_bind, emit, ret.
  rewrite H. simpl. rewrite map_map. reflexivity.
Qed.

Lemma outcome_exists {B} (w : world) (p : Path) (k : bool -> io B) :
  stat_passes w p = true ->
  outcome (io_bind (Path_exists w p) k)
  = outcome (k (bool_decide (is_Some (stat_of w p)))).
Proof.
  intros H. unfold Path_exists. rewrite outcome_bind, (stat_test_passes _ w p H).
  cbn [outcome snd]. destruct (stat_of w p); reflexivity.
Qed.

Lemma outcome_is_dir {B} (w : world) (p : Path) (k : bool -> io B) :
  stat_passes w p = true ->
  outcome (io_bind (Path_is_dir w p) k)
  = outcome (k (from_option is_dir_inode false (stat_of w p))).
Proof.
  intros H. unfold Path_is_dir. rewrite outcome_bind, (stat_test_passes _ w p H).
  reflexivity.
Qed.

Lemma outcome_is_file {B} (w : world) (p : Path) (k : bool -> io B) :
  stat_passes w p = true ->
  outcome (io_bind (Path_is_file w p) k)
  = outcome (k (from_option is_file_inode false (stat_of w p))).
Proof.
  intros H. unfold Path_is_file. rewrite outcome_bind, (stat_test_passes _ w p H).
  reflexivity.
Qed.

Lemma outcome_exists_refused {B} (w : world) (p : Path) (e : errno) (k : bool -> io B) :
  stat_result w p = inl e -> ignore_error e = false ->
  outcome (io_bind (Path_exists w p) k) = inl (oserror_of e p).
Proof.
  intros H He. unfold Path_exists.
  rewrite outcome_bind, (stat_test_refused _ w p e H He). reflexivity.
Qed.

Lemma outcome_resolved {B} (srv : server) (w : world) (s : str) (p : Path) (t : list event)
    (k : Path -> io B) :
  resolve_path srv w (VStr s) = (t, inr p) ->
  outcome (io_bind (resolve_path srv w (VStr s)) k) = outcome (k p).
Proof. intros H. rewrite outcome_bind, H. reflexivity. Qed.

Lemma exists_true (o : option inode) (st : inode) :
  o = Some st -> bool_decide (is_Some o) = true.
Proof. intros ->. apply bool_decide_eq_true_2. eauto. Qed.

(** What the handler makes of a directory: the result of the loop over
    its sorted entries, under the header. *)
Lemma handle_list_directory_dir (srv : server) (w : world) (arguments : gmap str value)
    (s : str) (t : list event) (p : Path) es mt sz :
  default (VStr (lit ".")) (arguments !! KEY_PATH) = VStr s ->
  resolve_path srv w (VStr s) = (t, inr p) ->
  stat_of w p = Some (Dir es mt sz) ->
  outcome (handle_list_directory srv w arguments)
  = match outcome (for_each (render_entry w) (sorted (map (child p) (map fst es)))) with
    | inl e => inl e
    | inr rows =>
        inr (text_result
               match rows with
               | [] => lit "Directory " ++ Path_str p ++ lit " is empty"
               | _ => lit "Contents of " ++ Path_str p ++ lit ":" ++ [LF] ++ join [LF] rows
               end)
    end.
Proof.
  intros Ha Hr Hst. unfold handle_list_directory. rewrite Ha.
  pose proof (stat_passes_Some _ _ _ Hst) as Hp.
  rewrite (outcome_resolved _ _ _ _ _ _ Hr), outcome_exists by exact Hp.
  rewrite (exists_true _ _ Hst). cbn [negb].
  rewrite outcome_is_dir, Hst by exact Hp. cbn [from_option is_dir_inode negb].
  rewrite outcome_bind, (Path_iterdir_dir w p es mt sz Hst). cbn [outcome snd].
  rewrite outcome_bind.
  destruct (outcome (for_each (render_entry w) (sorted (map (child p) (map fst es)))))
    as [e|rows]; [reflexivity|]. destruct rows; reflexivity.
Qed.

(** C5, amended.  For a path argument naming something inside the root:
    - a directory on every entry of which [stat] answers, or fails with
      an error that [is_dir] and [is_file] ignore, gives one line per
      entry, in the order of the names, each with "dir" or "file" and
      the name, a regular file also with its size in bytes (an empty
      directory gives one line saying so);
    - a directory with an entry on which [stat] fails with another
      error (a link to a name of more than NAME_MAX bytes) gives no
      listing: the handler raises the OSError of such an entry;
    - something that is not a directory gives "Not a directory: ...";
    - where the kernel finds nothing (a component is missing or is not
      a directory, or there are too many links), "Directory not found:
      ...";
    - where the kernel refuses the path itself with another error, the
      handler raises that OSError.
    Directories have no permissions here: each can be listed. *)
Theorem list_directory_lists (srv : server) (w : world) (arguments : gmap str value)
    (s : str) (p : Path) :
  default (VStr (lit ".")) (arguments !! KEY_PATH) = VStr s ->
  resolves_inside srv w s p ->
  (forall es mt sz, stat_of w p = Some (Dir es mt sz) ->
     Forall (fun n => stat_passes w (child p n) = true) (map fst es) ->
     let names := map fst es in
     let shown := sorted (map (child p) names) in
     outcome (handle_list_directory srv w arguments)
     = inr (text_result (listing_text w p names))
     /\ length (map (entry_line w) shown) = length es
     /\ map Path_name shown ≡ₚ names
     /\ Sorted str_le (map Path_name shown)
     /\ (forall e d t r, e ∈ shown -> stat_of w e = Some (File d t r) ->
           entry_line w e = lit "  [file] " ++ Path_name e ++ lit " ("
                            ++ str_of_int (Z.of_nat (length d)) ++ lit " bytes)")
     /\ (forall e es' t z, e ∈ shown -> stat_of w e = Some (Dir es' t z) ->
           entry_line w e = lit "  [dir] " ++ Path_name e))
  /\ (forall es mt sz, stat_of w p = Some (Dir es mt sz) ->
        Exists (fun n => stat_passes w (child p n) = false) (map fst es) ->
        exists n e, n ∈ map fst es /\ stat_result w (child p n) = inl e
                    /\ ignore_error e = false
                    /\ outcome (handle_list_directory srv w arguments)
                       = inl (oserror_of e (child p n)))
  /\ (forall st, stat_of w p = Some st -> is_dir_inode st = false ->
        outcome (handle_list_directory srv w arguments)
        = inr (text_result (lit "Not a directory: " ++ s)))
  /\ (forall e, stat_result w p = inl e -> ignore_error e = true ->
        outcome (handle_list_directory srv w arguments)
        = inr (text_result (lit "Directory not found: " ++ s)))
  /\ (forall e, stat_result w p = inl e -> ignore_error e = false ->
        outcome (handle_list_directory srv w arguments) = inl (oserror_of e p)).
Proof.
  intros Ha Hin. apply resolve_path_inside in Hin.
  split; [|split; [|split; [|split]]].
  - intros es mt sz H Hall names shown. subst names shown.
    assert (Hshown : Forall (fun x => stat_passes w x = true)
                       (sorted (map (child p) (map fst es)))).
    { unfold sorted. rewrite merge_sort_Permutation. apply Forall_map. exact Hall. }
    repeat split.
    + rewrite (handle_list_directory_dir _ _ _ _ _ _ _ _ _ Ha Hin H).
      rewrite (for_each_render _ _ Hshown).
      unfold listing_text.
      destruct (sorted_children p (map fst es)) as [Hperm _].
      destruct es as [|e es]; [reflexivity|].
      cbn [map fst] in *. set (l := sorted _) in *.
      destruct l as [|x l]; [|reflexivity].
      apply Permutation_length in Hperm. discriminate.
    + rewrite length_map. unfold sorted.
      rewrite merge_sort_Permutation, !length_map. reflexivity.
    + apply sorted_children.
    + apply sorted_children.
    + intros e d t r _ He. unfold entry_line. rewrite He. reflexivity.
    + intros e es' t z _ He. unfold entry_line. rewrite He. simpl.
      rewrite app_nil_r. reflexivity.
  - intros es mt sz H Hex.
    assert (Hshown : Exists (fun x => stat_passes w x = false)
                       (sorted (map (child p) (map fst es)))).
    { unfold sorted. rewrite merge_sort_Permutation. apply Exists_exists.
      apply Exists_exists in Hex as (n & Hn & Hf).
      exists (child p n). split; [|exact Hf]. apply list_elem_of_fmap_2. exact Hn. }
    destruct (for_each_refused _ _ Hshown) as (x & e & Hx & Hr & He & Ho).
    unfold sorted in Hx. rewrite merge_sort_Permutation in Hx.
    apply list_elem_of_fmap in Hx as (n & -> & Hn).
    exists n, e. repeat split; try assumption.
    rewrite (handle_list_directory_dir _ _ _ _ _ _ _ _ _ Ha Hin H), Ho. reflexivity.
  - intros st Hst Hnd. unfold handle_list_directory. rewrite Ha.
    pose proof (stat_passes_Some _ _ _ Hst) as Hp.
    rewrite (outcome_resolved _ _ _ _ _ _ Hin), outcome_exists by exact Hp.
    rewrite (exists_true _ _ Hst). cbn [negb].
    rewrite outcome_is_dir, Hst by exact Hp. cbn [from_option]. rewrite Hnd. reflexivity.
  - intros e He Hi. unfold handle_list_directory. rewrite Ha.
    rewrite (outcome_resolved _ _ _ _ _ _ Hin),
      outcome_exists by exact (stat_passes_ignored _ _ _ He Hi).
    rewrite (stat_of_None _ _ _ He). reflexivity.
  - intros e He Hi. unfold handle_list_directory. rewrite Ha.
    rewrite (outcome_resolved _ _ _ _ _ _ Hin).
    apply outcome_exists_refused; assumption.
Qed.

Lemma list_directory_lists_witness :
  outcome (handle_list_directory Demo.srv Demo.w (Demo.args1 "sub"))
  = inr (text_result (lit "Contents of /srv/data/sub:" ++ [LF]
                      ++ lit "  [file] a.txt (1 bytes)")).
Proof.
  pose (p := {| p_abs := true; p_parts := [lit "srv"; lit "data"; lit "sub"] |}).
  destruct (list_directory_lists Demo.srv Demo.w (Demo.args1 "sub") (lit "sub") p)
    as [Hdir _].
  - reflexivity.
  - repeat split.
  - destruct (Hdir [(lit "a.txt", Demo.text_file "a")] 1700000400 4096 eq_refl)
      as [Hout _].
    + repeat constructor.
    + exact Hout.
Defined.

(** C5, as the specification words it: every existing directory inside
    the root is answered with one entry per member.  The root /srv/data
    of this tree holds a file and a link to a name of 256 letters;
    [is_dir] on the link raises the OSError of the kernel, and the
    answer of [call_tool] is the text of that error, with no entry. *)
Lemma list_directory_entry_name_too_long :
  let p := {| p_abs := true; p_parts := [lit "srv"; lit "data"] |} in
  let far := child p (lit "far") in
  resolves_inside Demo.srv Demo.w_long (lit ".") p
  /\ stat_of Demo.w_long p
     = Some (Dir [ (lit "a.txt", File (lit "a") 1700003000 true);
                   (lit "far", Symlink (SEP :: Demo.long_name)) ] 1700003100 4096)
  /\ stat_result Demo.w_long far = inl ENAMETOOLONG
  /\ outcome (handle_list_directory Demo.srv Demo.w_long ∅)
     = inl (oserror_of ENAMETOOLONG far)
  /\ outcome (call_tool Demo.srv Demo.w_long (lit "list_directory") ∅)
     = inr (text_result (lit "Error: [Errno 36] File name too long: '/srv/data/far'")).
Proof. vm_compute. repeat split. Qed.

(* ===================================================================== *)
(** ** read_file *)
(* ===================================================================== *)

Lemma utf8_decode_app (st : dstate) (a b : list Z) :
  utf8_decode st (a ++ b)
  = match utf8_decode st a with
    | None => None
    | Some (st', o1) =>
        match utf8_decode st' b with
        | None => None
        | Some (st'', o2) => Some (st'', o1 ++ o2)
        end
    end.
Proof.
  revert st. induction a as [|x a IH]; intros st; simpl.
  - destruct (utf8_decode st b) as [[st' o]|]; reflexivity.
  - destruct (utf8_step st x) as [[st1 o1]|]; [|reflexivity].
    rewrite IH. destruct (utf8_decode st1 a) as [[st2 o2]|]; [|reflexivity].
    destruct (utf8_decode st2 b) as [[st3 o3]|]; [|reflexivity].
    rewrite app_assoc. reflexivity.
Qed.

Lemma concat_chunks_of (n fuel : nat) (bs : list Z) :
  (0 < n)%nat -> (length bs <= fuel)%nat -> concat (chunks_of fuel n bs) = bs.
Proof.
  intros Hn. revert bs. induction fuel as [|fuel IH]; intros bs Hlen.
  - destruct bs; [reflexivity|simpl in Hlen; lia].
  - destruct bs as [|b bs]; [reflexivity|].
    cbn [chunks_of concat]. rewrite IH.
    + apply take_drop.
    + rewrite length_drop. simpl in *. lia.
Qed.

Lemma concat_chunks (n : nat) (bs : list Z) : (0 < n)%nat -> concat (chunks n bs) = bs.
Proof. intros Hn. apply concat_chunks_of; [exact Hn|reflexivity]. Qed.

(** How an iteration ends depends on the bytes alone: it ends in a
    decoding error exactly when the bytes read are not well-formed. *)
Lemma iter_chunks_end (cs : list (list Z)) (st : dstate) (pendingcr : bool) (buf : str) :
  snd (iter_chunks cs st pendingcr buf)
  = match utf8_decode st (concat cs) with
    | Some (st', _) => if utf8_final st' then None else Some decode_error
    | None => Some decode_error
    end.
Proof.
  revert st pendingcr buf. induction cs as [|c cs IH]; intros st pendingcr buf.
  - cbn [iter_chunks concat utf8_decode].
    destruct (utf8_final st); [|reflexivity].
    destruct (nl_decode pendingcr [] true) as [pc out].
    destruct (take_lines (buf ++ out)) as [ls r]. reflexivity.
  - cbn [iter_chunks concat]. rewrite utf8_decode_app.
    destruct (utf8_decode st c) as [[st' out0]|]; [|reflexivity].
    destruct (nl_decode pendingcr out0 false) as [pc out].
    destruct (take_lines (buf ++ out)) as [ls buf'].
    specialize (IH st' pc buf').
    destruct (iter_chunks cs st' pc buf') as [ls' fin]. cbn [snd] in *. rewrite IH.
    destruct (utf8_decode st' (concat cs)) as [[st'' o]|]; reflexivity.
Qed.

Lemma file_iter_end (n : nat) (bs : list Z) :
  (0 < n)%nat ->
  snd (file_iter n bs) = if utf8_valid bs then None else Some decode_error.
Proof.
  intros Hn. unfold file_iter, utf8_valid.
  rewrite iter_chunks_end, concat_chunks by exact Hn.
  destruct (utf8_decode DStart bs) as [[st o]|]; [|reflexivity].
  destruct (utf8_final st); reflexivity.
Qed.

Lemma CHUNK_SIZE_pos : (0 < CHUNK_SIZE)%nat.
Proof. unfold CHUNK_SIZE. lia. Qed.

Lemma translate_cons_other (c : Z) (s : str) :
  c <> CR -> translate (c :: s) = c :: translate s.
Proof. intros H. simpl. destruct (Z.eqb_spec c CR); [contradiction|reflexivity]. Qed.

Lemma translate_cr_lf (s : str) : translate (CR :: LF :: s) = LF :: translate s.
Proof. reflexivity. Qed.

Lemma translate_cr_other (d : Z) (s : str) :
  d <> LF -> translate (CR :: d :: s) = LF :: translate (d :: s).
Proof.
  intros H. cbn [translate]. change (CR =? CR) with true. cbv iota.
  destruct (Z.eqb_spec d LF); [contradiction|reflexivity].
Qed.

(** Translation can be cut anywhere but between "\r" and "\n". *)
Lemma translate_app (a b : str) :
  ends_with_cr a = false \/ (forall b', b <> LF :: b') ->
  translate (a ++ b) = translate a ++ translate b.
Proof.
  remember (length a) as n eqn:Hn. revert a Hn.
  induction n as [n IH] using lt_wf_ind. intros a Hn Hcut.
  destruct a as [|c a]; [reflexivity|].
  destruct (Z.eqb_spec c CR) as [->|Hc].
  - destruct a as [|d a].
    + destruct Hcut as [Hcut|Hcut]; [discriminate|].
      destruct b as [|d b]; [reflexivity|].
      cbn [app]. rewrite translate_cr_other by (intros ->; apply (Hcut b); reflexivity).
      reflexivity.
    + destruct (Z.eqb_spec d LF) as [->|Hd].
      * cbn [app]. rewrite !translate_cr_lf. cbn [app]. f_equal.
        apply (IH (length a)); [simpl in Hn; lia|reflexivity|].
        destruct Hcut as [Hcut|Hcut]; [left|right; exact Hcut].
        destruct a; [reflexivity|exact Hcut].
      * cbn [app]. rewrite !translate_cr_other by exact Hd. cbn [app]. f_equal.
        apply (IH (length (d :: a)) ltac:(simpl in *; lia) (d :: a) eq_refl).
        destruct Hcut as [Hcut|Hcut]; [left|right; exact Hcut]. exact Hcut.
  - cbn [app]. rewrite !translate_cons_other by exact Hc. cbn [app]. f_equal.
    apply (IH (length a)); [simpl in Hn; lia|reflexivity|].
    destruct Hcut as [Hcut|Hcut]; [left|right; exact Hcut].
    destruct a as [|d a]; [reflexivity|exact Hcut].
Qed.

Lemma ends_with_cr_split (s : str) :
  ends_with_cr s = true -> s = removelast s ++ [CR].
Proof.
  induction s as [|c s IH]; [discriminate|].
  destruct s as [|d s].
  - unfold ends_with_cr. simpl. intros H. apply Z.eqb_eq in H. subst c. reflexivity.
  - intros H. change (removelast (c :: d :: s)) with (c :: removelast (d :: s)).
    cbn [app]. f_equal. apply IH. exact H.
Qed.

(** One call of the newline decoder, seen from the whole text: what it
    gives out and what it holds back translate to the same as its input
    with what was held back before. *)
Lemma nl_decode_step (pendingcr : bool) (out0 rest : str) :
  snd (nl_decode pendingcr out0 false)
  ++ translate (pending (fst (nl_decode pendingcr out0 false)) ++ rest)
  = translate (pending pendingcr ++ out0 ++ rest).
Proof.
  unfold nl_decode. rewrite orb_false_r.
  set (flush := pendingcr && negb (bool_decide (out0 = []))).
  assert (Ho : (if flush then CR :: out0 else out0) = pending pendingcr ++ out0
               \/ (pendingcr = true /\ out0 = [] /\ flush = false)).
  { subst flush. destruct pendingcr; [|left; reflexivity].
    destruct out0; [right; repeat split|left; reflexivity]. }
  destruct Ho as [Ho|(-> & -> & Hf)].
  - rewrite Ho. set (o1 := pending pendingcr ++ out0) in *.
    replace (pending pendingcr ++ out0 ++ rest) with (o1 ++ rest)
      by (subst o1; rewrite app_assoc; reflexivity).
    destruct (ends_with_cr o1) eqn:He; cbn [andb negb fst snd].
    + rewrite (ends_with_cr_split o1 He) at 2. rewrite <- app_assoc.
      symmetry. apply translate_app. right. intros b'. discriminate.
    + assert (Hp : (if flush then false else pendingcr) = false).
      { subst flush. destruct pendingcr; [|reflexivity].
        destruct out0; [discriminate|reflexivity]. }
      rewrite Hp. symmetry. apply translate_app. left. exact He.
  - rewrite Hf. reflexivity.
Qed.

Lemma take_lines_cat (a b : str) :
  take_lines (a ++ b)
  = (fst (take_lines a) ++ fst (take_lines (snd (take_lines a) ++ b)),
     snd (take_lines (snd (take_lines a) ++ b))).
Proof.
  induction a as [|c a IH].
  - cbn [app take_lines fst snd]. destruct (take_lines b); reflexivity.
  - cbn [app take_lines]. rewrite IH. clear IH.
    destruct (take_lines a) as [la ra]. cbn [fst snd].
    destruct (Z.eqb_spec c LF) as [->|Hc].
    + cbn [fst snd]. reflexivity.
    + destruct la as [|l la]; cbn [fst snd app].
      * cbn [take_lines]. destruct (take_lines (ra ++ b)) as [lb rb]. cbn [fst snd].
        destruct (Z.eqb_spec c LF); [contradiction|].
        destruct lb; reflexivity.
      * reflexivity.
Qed.

Lemma take_lines_app (a b : str) :
  lines_of (a ++ b) = fst (take_lines a) ++ lines_of (snd (take_lines a) ++ b).
Proof.
  unfold lines_of. rewrite take_lines_cat.
  destruct (take_lines (snd (take_lines a) ++ b)) as [lb rb]. cbn [fst snd].
  rewrite app_assoc. reflexivity.
Qed.

(** Reading in blocks gives the lines of the whole text. *)
Lemma iter_chunks_lines (cs : list (list Z)) :
  forall (st : dstate) (pendingcr : bool) (buf : str) (stf : dstate) (out : str),
  utf8_decode st (concat cs) = Some (stf, out) -> utf8_final stf = true ->
  fst (iter_chunks cs st pendingcr buf)
  = lines_of (buf ++ translate (pending pendingcr ++ out)).
Proof.
  induction cs as [|c cs IH]; intros st pendingcr buf stf out Hd Hf.
  - cbn [concat utf8_decode] in Hd. inversion Hd; subst stf out. clear Hd.
    cbn [iter_chunks]. rewrite Hf, app_nil_r.
    unfold nl_decode. rewrite orb_true_r, andb_true_r.
    replace (ends_with_cr (if pendingcr then [CR] else []) && negb true) with false
      by (rewrite andb_false_r; reflexivity).
    unfold lines_of, pending.
    destruct (take_lines (buf ++ translate (if pendingcr then [CR] else []))) as [ls r].
    reflexivity.
  - cbn [concat] in Hd. rewrite utf8_decode_app in Hd. cbn [iter_chunks].
    destruct (utf8_decode st c) as [[st' out0]|]; [|discriminate].
    destruct (utf8_decode st' (concat cs)) as [[st'' out1]|] eqn:Hd1; [|discriminate].
    inversion Hd; subst stf out. clear Hd.
    pose proof (nl_decode_step pendingcr out0 out1) as Hnl.
    destruct (nl_decode pendingcr out0 false) as [pc o]. cbn [fst snd] in Hnl.
    rewrite <- Hnl, app_assoc, take_lines_app.
    destruct (take_lines (buf ++ o)) as [ls buf']. cbn [fst snd].
    specialize (IH st' pc buf' st'' out1 Hd1 Hf).
    destruct (iter_chunks cs st' pc buf') as [ls' fin]. cbn [fst] in *.
    rewrite IH. reflexivity.
Qed.

(** For a well-formed file the iterator yields the lines of its text,
    whatever the size of the blocks it reads. *)
Lemma file_iter_lines (n : nat) (bs : list Z) :
  (0 < n)%nat -> utf8_valid bs = true -> file_iter n bs = (text_lines bs, None).
Proof.
  intros Hn Hv. pose proof (file_iter_end n bs Hn) as He. rewrite Hv in He.
  unfold utf8_valid in Hv. unfold text_lines, decoded_text.
  destruct (utf8_decode DStart bs) as [[stf out]|] eqn:Hd; [|discriminate].
  assert (Hl : fst (file_iter n bs) = lines_of (translate out)).
  { unfold file_iter. rewrite (iter_chunks_lines _ DStart false [] stf out).
    - reflexivity.
    - rewrite concat_chunks by exact Hn. exact Hd.
    - exact Hv. }
  destruct (file_iter n bs) as [L fin]. cbn [fst snd] in *. subst. reflexivity.
Qed.

(** The loop of [handle_read_file] for an integer cap [n], started at
    index [i]: it stops with the marker as soon as a line with index
    [n] or more is read, and otherwise ends as the iteration ends. *)
Lemma read_loop_int (n : Z) (items : list str) (fin : option exn) :
  forall (i : Z) (acc : list str),
  read_loop (VInt n) i items fin acc
  = let k := Z.to_nat (n - i) in
    if (k <? length items)%nat
    then inr (acc ++ map rstrip (take k items) ++ [truncation_marker (str_of_int n)])
    else match fin with
         | None => inr (acc ++ map rstrip items)
         | Some e => inl e
         end.
Proof.
  induction items as [|line rest IH]; intros i acc.
  - cbn [read_loop length map]. cbv zeta.
    replace (Z.to_nat (n - i) <? 0)%nat with false
      by (symmetry; apply Nat.ltb_ge; lia).
    rewrite app_nil_r. reflexivity.
  - cbn [read_loop as_number length]. cbv zeta.
    destruct (Z.leb_spec n i) as [Hle|Hlt].
    + replace (Z.to_nat (n - i)) with O by lia. reflexivity.
    + rewrite IH. cbv zeta.
      replace (Z.to_nat (n - i)) with (S (Z.to_nat (n - (i + 1)))) by lia.
      cbn [take map]. change (S ?a <? S ?b)%nat with (a <? b)%nat.
      rewrite <- !app_assoc. reflexivity.
Qed.

(** [handle_read_file] on a readable regular file, in terms of its loop. *)
Lemma handle_read_file_outcome (srv : server) (w : world) (arguments : gmap str value)
    (s : str) (p : Path) (d : list Z) (mt : Z) :
  arguments !! KEY_PATH = Some (VStr s) -> s <> [] ->
  resolves_inside srv w s p ->
  stat_of w p = Some (File d mt true) ->
  outcome (handle_read_file srv w arguments)
  = match read_loop (default (VInt 100) (arguments !! KEY_MAX_LINES)) 0
            (fst (file_iter CHUNK_SIZE d)) (snd (file_iter CHUNK_SIZE d)) [] with
    | inl e => if is_decode_error (exn_cls e)
               then inr (text_result (not_a_text_file s)) else inl e
    | inr lines => inr (text_result (read_header p ++ join [LF] lines))
    end.
Proof.
  intros Ha Hs Hin Hst. apply resolve_path_inside in Hin.
  unfold handle_read_file. rewrite Ha.
  change (default VNone (Some (VStr s))) with (VStr s). cbn [truthy].
  rewrite (bool_decide_eq_false_2 _ Hs). cbn [negb].
  pose proof (stat_passes_Some _ _ _ Hst) as Hp.
  rewrite (outcome_resolved _ _ _ _ _ _ Hin), outcome_exists by exact Hp.
  rewrite (exists_true _ _ Hst). cbn [negb].
  rewrite outcome_is_file, Hst by exact Hp. cbn [from_option is_file_inode negb].
  unfold open_text, io_bind at 2, emit.
  rewrite (proj1 (stat_of_Some _ _ _) Hst). cbn [format_path].
  generalize (file_iter CHUNK_SIZE d). intros [L fin]. cbn [fst snd].
  unfold io_bind, ret, raise, try_except_cls, outcome, read_header, not_a_text_file.
  cbn [fst snd].
  destruct (read_loop _ 0 L fin []) as [e|lines]; cbn [fst snd].
  - destruct (is_decode_error (exn_cls e)); reflexivity.
  - rewrite <- !app_assoc. reflexivity.
Qed.

(** C3, against the code.  With a cap of -1 the empty file, which has
    more than -1 lines, comes back without a marker. *)
Lemma negative_cap_no_marker :
  let p := {| p_abs := true; p_parts := [lit "srv"; lit "data"; lit "empty.txt"] |} in
  stat_of Demo.w p = Some (File [] 1700000100 true)
  /\ text_lines [] = []
  /\ read_loop (VInt (-1)) 0 (text_lines []) None [] = inr []
  /\ outcome (handle_read_file Demo.srv Demo.w (Demo.args2 "empty.txt" (-1)))
     = inr (text_result (read_header p ++ join [LF] []))
  /\ ~ marker_iff_more_lines (-1) (text_lines []) [].
Proof.
  repeat split; try (vm_compute; reflexivity).
  intros [_ H]. specialize (H ltac:(vm_compute; reflexivity)).
  apply elem_of_nil in H. exact H.
Qed.

(** C3, as the code has it.  For a readable text file inside the root
    with lines [L] and an integer cap [n], let [m] be [n], or 0 when [n]
    is negative.  [read_file] returns the first [m] lines of [L] (all
    of them when there are at most [m]), each without its trailing
    white space, and the truncation marker follows them exactly when
    [L] has more than [m] lines. *)
Theorem read_file_line_cap (srv : server) (w : world) (arguments : gmap str value)
    (s : str) (p : Path) (d : list Z) (mt n : Z) :
  arguments !! KEY_PATH = Some (VStr s) -> s <> [] ->
  default (VInt 100) (arguments !! KEY_MAX_LINES) = VInt n ->
  resolves_inside srv w s p ->
  stat_of w p = Some (File d mt true) ->
  utf8_valid d = true ->
  let L := text_lines d in
  let m := Z.max 0 n in
  let content := map rstrip (take (Z.to_nat m) L) in
  let mark := if m <? Z.of_nat (length L)
              then [truncation_marker (str_of_int n)] else [] in
  outcome (handle_read_file srv w arguments)
  = inr (text_result (read_header p ++ join [LF] (content ++ mark)))
  /\ Z.of_nat (length content) <= m
  /\ (mark = [truncation_marker (str_of_int n)] <-> m < Z.of_nat (length L))
  /\ (mark = [] <-> Z.of_nat (length L) <= m)
  /\ (Z.of_nat (length L) <= m -> content = map rstrip L).
Proof.
  intros Ha Hs Hn Hin Hst Hv L m content mark.
  repeat split.
  - rewrite (handle_read_file_outcome srv w arguments s p d mt Ha Hs Hin Hst).
    rewrite (file_iter_lines CHUNK_SIZE d CHUNK_SIZE_pos Hv), Hn. cbn [fst snd].
    rewrite read_loop_int. cbv zeta. fold L. rewrite Z.sub_0_r.
    replace (Z.to_nat n) with (Z.to_nat m) by (unfold m; lia).
    subst content mark.
    destruct (Nat.ltb_spec (Z.to_nat m) (length L)) as [Hlt|Hge].
    + replace (m <? Z.of_nat (length L)) with true
        by (symmetry; apply Z.ltb_lt; unfold m in *; lia).
      reflexivity.
    + replace (m <? Z.of_nat (length L)) with false
        by (symmetry; apply Z.ltb_ge; unfold m in *; lia).
      rewrite take_ge by exact Hge. rewrite !app_nil_l, app_nil_r. reflexivity.
  - subst content. rewrite length_map, length_take. unfold m. lia.
  - subst mark. destruct (Z.ltb_spec m (Z.of_nat (length L))); [trivial|discriminate].
  - subst mark. destruct (Z.ltb_spec m (Z.of_nat (length L))); [reflexivity|lia].
  - subst mark. destruct (Z.ltb_spec m (Z.of_nat (length L))); [discriminate|trivial].
  - subst mark. destruct (Z.ltb_spec m (Z.of_nat (length L))); [lia|reflexivity].
  - intros Hle. subst content. rewrite take_ge by lia. reflexivity.
Qed.

Lemma read_file_line_cap_witness :
  outcome (handle_read_file Demo.srv Demo.w (Demo.args2 "notes.txt" 2))
  = inr (text_result (lit "Contents of notes.txt:" ++ [LF; LF] ++ lit "alpha" ++ [LF]
                      ++ lit "beta" ++ [LF] ++ truncation_marker (lit "2"))).
Proof.
  pose (p := {| p_abs := true; p_parts := [lit "srv"; lit "data"; lit "notes.txt"] |}).
  destruct (read_file_line_cap Demo.srv Demo.w (Demo.args2 "notes.txt" 2)
              (lit "notes.txt") p
              (lit ("alpha  " ++ Demo.nl ++ "beta" ++ Demo.nl ++ "gamma" ++ Demo.nl))
              1700000000 2) as [Hout _].
  - reflexivity.
  - discriminate.
  - reflexivity.
  - repeat split.
  - reflexivity.
  - reflexivity.
  - rewrite Hout. vm_compute. reflexivity.
Defined.

(** C8, against the code.  The file big.log is not well-formed UTF-8,
    but its first 8192 bytes hold more than 100 lines: with the default
    cap the loop stops before the offending byte is read, and the
    leading lines come back with the truncation marker. *)
Lemma undecodable_tail_not_reported :
  let p := {| p_abs := true; p_parts := [lit "srv"; lit "data"; lit "big.log"] |} in
  utf8_valid Demo.big_data = false
  /\ stat_of Demo.w_big p = Some (File Demo.big_data 1700001000 true)
  /\ call_tool Demo.srv Demo.w_big (lit "read_file") (Demo.args1 "big.log")
      = ([EvResolve p; EvStat p; EvStat p; EvOpen p],
         inr (text_result (read_header p
                ++ join [LF] (repeat [] 100 ++ [truncation_marker (lit "100")]))))
  /\ outcome (call_tool Demo.srv Demo.w_big (lit "read_file") (Demo.args1 "big.log"))
      <> inr (text_result (not_a_text_file (lit "big.log"))).
Proof.
  repeat split; try (vm_compute; reflexivity).
  vm_compute. discriminate.
Qed.

(** C8, as the code has it.  For a readable file inside the root whose
    bytes are not well-formed UTF-8, with lines [L] readable ahead of
    the block that fails to decode and an integer cap [n] ([m] is [n],
    or 0 when [n] is negative):
    - if [L] has at most [m] lines, the answer is
      "Error: <path> is not a text file";
    - if [L] has more than [m] lines, the first [m] lines are returned
      with the truncation marker and the rest of the file is not read. *)
Theorem undecodable_file_reported (srv : server) (w : world) (arguments : gmap str value)
    (s : str) (p : Path) (d : list Z) (mt n : Z) :
  arguments !! KEY_PATH = Some (VStr s) -> s <> [] ->
  default (VInt 100) (arguments !! KEY_MAX_LINES) = VInt n ->
  resolves_inside srv w s p ->
  stat_of w p = Some (File d mt true) ->
  utf8_valid d = false ->
  let L := file_lines d in
  let m := Z.max 0 n in
  (Z.of_nat (length L) <= m ->
     outcome (handle_read_file srv w arguments) = inr (text_result (not_a_text_file s)))
  /\ (m < Z.of_nat (length L) ->
       outcome (handle_read_file srv w arguments)
       = inr (text_result (read_header p
                ++ join [LF] (map rstrip (take (Z.to_nat m) L)
                              ++ [truncation_marker (str_of_int n)])))).
Proof.
  intros Ha Hs Hn Hin Hst Hv L m.
  assert (Hfin : snd (file_iter CHUNK_SIZE d) = Some decode_error).
  { rewrite file_iter_end by exact CHUNK_SIZE_pos. rewrite Hv. reflexivity. }
  rewrite (handle_read_file_outcome srv w arguments s p d mt Ha Hs Hin Hst).
  rewrite Hn, Hfin, read_loop_int. cbv zeta. fold (file_lines d). fold L.
  rewrite Z.sub_0_r. replace (Z.to_nat n) with (Z.to_nat m) by (unfold m; lia).
  split; intros Hlen.
  - replace (Z.to_nat m <? length L)%nat with false
      by (symmetry; apply Nat.ltb_ge; unfold m in *; lia).
    reflexivity.
  - replace (Z.to_nat m <? length L)%nat with true
      by (symmetry; apply Nat.ltb_lt; unfold m in *; lia).
    reflexivity.
Qed.

Lemma undecodable_file_reported_witness :
  outcome (handle_read_file Demo.srv Demo.w (Demo.args1 "blob.bin"))
  = inr (text_result (lit "Error: blob.bin is not a text file")).
Proof.
  pose (p := {| p_abs := true; p_parts := [lit "srv"; lit "data"; lit "blob.bin"] |}).
  destruct (undecodable_file_reported Demo.srv Demo.w (Demo.args1 "blob.bin")
              (lit "blob.bin") p [72; 255; 10] 1700000200 100) as [Herr _].
  - reflexivity.
  - discriminate.
  - reflexivity.
  - repeat split.
  - reflexivity.
  - reflexivity.
  - apply Herr. vm_compute. discriminate.
Defined.

(* ===================================================================== *)
(** ** Further properties: the dispatcher and what it advertises *)
(* ===================================================================== *)

Lemma call_tool_list_directory (srv : server) (w : world) (arguments : gmap str value) :
  call_tool srv w (lit "list_directory") arguments
  = at_boundary (handle_list_directory srv w arguments).
Proof. reflexivity. Qed.

Lemma call_tool_read_file (srv : server) (w : world) (arguments : gmap str value) :
  call_tool srv w (lit "read_file") arguments
  = at_boundary (handle_read_file srv w arguments).
Proof. reflexivity. Qed.

Lemma call_tool_get_file_info (srv : server) (w : world) (arguments : gmap str value) :
  call_tool srv w (lit "get_file_info") arguments
  = at_boundary (handle_get_file_info srv w arguments).
Proof. reflexivity. Qed.

Lemma first_is_not_app (c : Z) (a b : str) :
  first_is_not c a = true -> first_is_not c (a ++ b) = true.
Proof. destruct a; [discriminate|exact id]. Qed.

Lemma never_begins_ret (c : Z) (s : str) :
  first_is_not c s = true -> never_begins c (ret (text_result s)).
Proof.
  destruct s as [|d s]; [discriminate|]. intros H. exists d, s. split; [reflexivity|].
  simpl in H. apply negb_true_iff, Z.eqb_neq in H. exact H.
Qed.

Lemma never_begins_bind {A} (c : Z) (m : io A) (k : A -> io (list TextContent)) :
  (forall a, never_begins c (k a)) -> never_begins c (io_bind m k).
Proof.
  intros Hk. destruct m as [t [e|a]]; [exact I|].
  unfold never_begins, outcome, io_bind. specialize (Hk a).
  unfold never_begins, outcome in Hk. destruct (k a) as [t' r]. exact Hk.
Qed.

Lemma never_begins_if (c : Z) (b : bool) (m1 m2 : io (list TextContent)) :
  never_begins c m1 -> never_begins c m2 -> never_begins c (if b then m1 else m2).
Proof. destruct b; auto. Qed.

Lemma never_begins_try_cls (c : Z) cls (m h : io (list TextContent)) :
  never_begins c m -> never_begins c h -> never_begins c (try_except_cls cls m h).
Proof.
  intros Hm Hh. destruct m as [t [e|a]]; unfold try_except_cls.
  - destruct (cls (exn_cls e)); [|exact I].
    unfold never_begins, outcome in *. destruct h as [t' r]. exact Hh.
  - exact Hm.
Qed.

Lemma never_begins_boundary (c : Z) (m : io (list TextContent)) :
  c <> 69 -> never_begins c m -> never_begins c (at_boundary m).
Proof.
  intros Hc Hm. destruct m as [t [e|l]]; [|exact Hm].
  unfold at_boundary, try_except, never_begins, outcome. simpl.
  exists 69, (lit "rror: " ++ exn_msg e). split; [reflexivity|congruence].
Qed.

Ltac begins_lit :=
  apply never_begins_ret; repeat (apply first_is_not_app); reflexivity.

Lemma handle_list_directory_begins (srv : server) (w : world) (arguments : gmap str value) :
  never_begins 85 (handle_list_directory srv w arguments).
Proof.
  unfold handle_list_directory.
  apply never_begins_bind; intros p. apply never_begins_bind; intros ex.
  apply never_begins_if; [begins_lit|].
  apply never_begins_bind; intros isd.
  apply never_begins_if; [begins_lit|].
  apply never_begins_bind; intros ch. apply never_begins_bind; intros es.
  destruct es; begins_lit.
Qed.

Lemma handle_read_file_begins (srv : server) (w : world) (arguments : gmap str value) :
  never_begins 85 (handle_read_file srv w arguments).
Proof.
  unfold handle_read_file.
  apply never_begins_if; [begins_lit|].
  apply never_begins_bind; intros p. apply never_begins_bind; intros ex.
  apply never_begins_if; [begins_lit|].
  apply never_begins_bind; intros isf.
  apply never_begins_if; [begins_lit|].
  apply never_begins_try_cls; [|begins_lit].
  apply never_begins_bind; intros f.
  destruct (read_loop _ _ _ _ _); [exact I|begins_lit].
Qed.

Lemma handle_get_file_info_begins (srv : server) (w : world) (arguments : gmap str value) :
  never_begins 85 (handle_get_file_info srv w arguments).
Proof.
  unfold handle_get_file_info.
  apply never_begins_if; [begins_lit|].
  apply never_begins_bind; intros p. apply never_begins_bind; intros ex.
  apply never_begins_if; [begins_lit|].
  apply never_begins_bind; intros st. apply never_begins_bind; intros isd.
  destruct (w_isoformat w (inode_mtime st)); [exact I|].
  apply never_begins_ret. cbn [join]. repeat (apply first_is_not_app). reflexivity.
Qed.

Lemma advertised_names (srv : server) :
  map name (list_tools srv)
  = [lit "list_directory"; lit "read_file"; lit "get_file_info"].
Proof. reflexivity. Qed.

(** X1.  The answer of [call_tool] begins with "Unknown tool: " exactly
    for the names [list_tools] does not advertise: every advertised
    tool is dispatched, and no answer of a tool, on success or on
    failure, can be taken for the unknown-tool answer. *)
Theorem unknown_answer_iff_not_advertised (srv : server) (w : world) (tool : str)
    (arguments : gmap str value) :
  answer_begins (lit "Unknown tool: ") (call_tool srv w tool arguments)
  <-> tool ∉ map name (list_tools srv).
Proof.
  rewrite advertised_names. split.
  - intros (t & s & E) Hin.
    assert (Hnb : never_begins 85 (call_tool srv w tool arguments)).
    { repeat (apply elem_of_cons in Hin as [->|Hin]).
      - rewrite call_tool_list_directory. apply never_begins_boundary; [discriminate|].
        apply handle_list_directory_begins.
      - rewrite call_tool_read_file. apply never_begins_boundary; [discriminate|].
        apply handle_read_file_begins.
      - rewrite call_tool_get_file_info. apply never_begins_boundary; [discriminate|].
        apply handle_get_file_info_begins.
      - apply elem_of_nil in Hin. contradiction. }
    rewrite E in Hnb. destruct Hnb as (d & s' & Hl & Hd).
    apply Hd. unfold text_result in Hl. inversion Hl. reflexivity.
  - intros Hn. exists [], tool. unfold call_tool.
    rewrite !bool_decide_eq_false_2; [reflexivity|..];
      intros ->; apply Hn; repeat constructor.
Qed.

(* ===================================================================== *)
(** ** Further properties: refusals and failures of the handlers *)
(* ===================================================================== *)

Lemma truthy_nonempty (s : str) : s <> [] -> truthy (VStr s) = true.
Proof. intros H. simpl. rewrite bool_decide_eq_false_2 by exact H. reflexivity. Qed.

(** X2.  When the string of the resolved path does not begin with the
    string of the root, each of the three handlers raises ValueError
    "Access denied: path outside allowed directory" right after the
    resolution, with no other access to the filesystem, and [call_tool]
    turns that into the text "Error: Access denied: ...". *)
Theorem access_denied_stops_every_tool (srv : server) (w : world)
    (arguments : gmap str value) (s : str) (q : list str) :
  arguments !! KEY_PATH = Some (VStr s) -> s <> [] ->
  joinrealpath (w_fs w) (w_fuel w) (start_dir w (requested srv s))
    (p_parts (requested srv s)) = inr q ->
  startswith (Path_str (MkPath true q)) (Path_str (allowed_path srv)) = false ->
  let refused := ([EvResolve (requested srv s)], inl access_denied) in
  let answer :=
    ([EvResolve (requested srv s)],
     inr (text_result (lit "Error: Access denied: path outside allowed directory"))) in
  handle_list_directory srv w arguments = refused
  /\ handle_read_file srv w arguments = refused
  /\ handle_get_file_info srv w arguments = refused
  /\ call_tool srv w (lit "list_directory") arguments = answer
  /\ call_tool srv w (lit "read_file") arguments = answer
  /\ call_tool srv w (lit "get_file_info") arguments = answer.
Proof.
  intros Ha Hs Hq Hd refused answer.
  pose proof (resolve_path_denied srv w s q Hq Hd) as Hr.
  pose proof (truthy_nonempty s Hs) as Ht.
  assert (H1 : handle_list_directory srv w arguments = refused).
  { unfold handle_list_directory. rewrite Ha. simpl default. rewrite Hr. reflexivity. }
  assert (H2 : handle_read_file srv w arguments = refused).
  { unfold handle_read_file. rewrite Ha. simpl default. rewrite Ht, Hr. reflexivity. }
  assert (H3 : handle_get_file_info srv w arguments = refused).
  { unfold handle_get_file_info. rewrite Ha. simpl default. rewrite Ht, Hr. reflexivity. }
  repeat split; try assumption.
  - rewrite call_tool_list_directory, H1. reflexivity.
  - rewrite call_tool_read_file, H2. reflexivity.
  - rewrite call_tool_get_file_info, H3. reflexivity.
Qed.

Lemma access_denied_stops_every_tool_witness :
  call_tool Demo.srv Demo.w (lit "read_file") (Demo.args1 "/etc/passwd")
  = ([EvResolve {| p_abs := true; p_parts := [lit "etc"; lit "passwd"] |}],
     inr (text_result (lit "Error: Access denied: path outside allowed directory"))).
Proof.
  destruct (access_denied_stops_every_tool Demo.srv Demo.w (Demo.args1 "/etc/passwd")
              (lit "/etc/passwd") [lit "etc"; lit "passwd"])
    as (_ & _ & _ & _ & H & _).
  - reflexivity.
  - discriminate.
  - reflexivity.
  - reflexivity.
  - exact H.
Defined.

(** X3.  [read_file] on a path that passes the root's check:
    - where the kernel finds nothing (a component is missing or is not
      a directory, or there are too many links) the answer is
      "File not found: <argument>";
    - where the kernel refuses the path with another error (a name of
      more than NAME_MAX bytes) [exists] lets the OSError pass and the
      handler raises it;
    - on something that is not a regular file the answer is
      "Not a file: <argument>".
    In all three cases the path is only stat'ed, never opened. *)
Theorem read_file_missing_or_not_a_file (srv : server) (w : world)
    (arguments : gmap str value) (s : str) (p : Path) (t : list event) :
  arguments !! KEY_PATH = Some (VStr s) -> s <> [] ->
  resolve_path srv w (VStr s) = (t, inr p) ->
  (forall e, stat_result w p = inl e -> ignore_error e = true ->
     handle_read_file srv w arguments
     = (t ++ [EvStat p], inr (text_result (lit "File not found: " ++ s))))
  /\ (forall e, stat_result w p = inl e -> ignore_error e = false ->
        handle_read_file srv w arguments = (t ++ [EvStat p], inl (oserror_of e p)))
  /\ (forall st, stat_of w p = Some st -> is_file_inode st = false ->
        handle_read_file srv w arguments
        = (t ++ [EvStat p; EvStat p], inr (text_result (lit "Not a file: " ++ s)))).
Proof.
  intros Ha Hs Hr. pose proof (truthy_nonempty s Hs) as Ht.
  assert (Hgo : handle_read_file srv w arguments
                = let '(t', r) :=
                    (let* ex := Path_exists w p in
                     if negb ex then ret (text_result (lit "File not found: " ++ s))
                     else
                       let* isf := Path_is_file w p in
                       if negb isf then ret (text_result (lit "Not a file: " ++ s))
                       else
                         try_except_cls is_decode_error
                           (let* f := open_text w p in
                            match read_loop (default (VInt 100) (arguments !! KEY_MAX_LINES))
                                    0 (fst f) (snd f) [] with
                            | inl e => raise e
                            | inr lines =>
                                ret (text_result (lit "Contents of " ++ Path_name p ++ lit ":"
                                                  ++ [LF; LF] ++ join [LF] lines))
                            end)
                           (ret (text_result (lit "Error: " ++ s ++ lit " is not a text file"))))
                  in (t ++ t', r)).
  { unfold handle_read_file. rewrite Ha. simpl default. rewrite Ht, Hr. reflexivity. }
  rewrite Hgo. unfold Path_exists, Path_is_file. split; [|split].
  - intros e He Hi.
    rewrite !(stat_test_passes _ w p (stat_passes_ignored _ _ _ He Hi)).
    rewrite (stat_of_None _ _ _ He). reflexivity.
  - intros e He Hi. rewrite !(stat_test_refused _ w p e He Hi). reflexivity.
  - intros st Hst Hnf.
    rewrite !(stat_test_passes _ w p (stat_passes_Some _ _ _ Hst)), Hst.
    unfold io_bind, ret. cbn [from_option negb]. rewrite Hnf. reflexivity.
Qed.

Lemma read_file_missing_or_not_a_file_witness :
  let p := {| p_abs := true; p_parts := [lit "srv"; lit "data"; lit "sub"] |} in
  let q := {| p_abs := true; p_parts := [lit "srv"; lit "data"; Demo.long_name] |} in
  handle_read_file Demo.srv Demo.w (Demo.args1 "sub")
  = ([EvResolve p; EvStat p; EvStat p], inr (text_result (lit "Not a file: sub")))
  /\ handle_read_file Demo.srv Demo.w {[ KEY_PATH := VStr Demo.long_name ]}
     = ([EvResolve q; EvStat q], inl (oserror_of ENAMETOOLONG q)).
Proof.
  intros p q. split.
  - destruct (read_file_missing_or_not_a_file Demo.srv Demo.w (Demo.args1 "sub")
                (lit "sub") p [EvResolve p]) as (_ & _ & H).
    + reflexivity.
    + discriminate.
    + reflexivity.
    + exact (H (Dir [(lit "a.txt", Demo.text_file "a")] 1700000400 4096) eq_refl eq_refl).
  - destruct (read_file_missing_or_not_a_file Demo.srv Demo.w
                {[ KEY_PATH := VStr Demo.long_name ]} Demo.long_name q [EvResolve q])
      as (_ & H & _).
    + reflexivity.
    + discriminate.
    + vm_compute. reflexivity.
    + exact (H ENAMETOOLONG ltac:(vm_compute; reflexivity) eq_refl).
Defined.

Lemma key_max_lines_ne_path : KEY_PATH <> KEY_MAX_LINES.
Proof. vm_compute. discriminate. Qed.

(** X4.  Every tool [list_tools] advertises declares "path" as its one
    required argument.  [list_directory] nevertheless accepts a call
    without it and behaves as for the path ".": same accesses, same
    answer. *)
Theorem list_directory_path_defaults_to_dot (srv : server) (w : world)
    (arguments : gmap str value) :
  Forall (fun t => required (inputSchema t) = [KEY_PATH]) (list_tools srv)
  /\ (arguments !! KEY_PATH = None ->
      handle_list_directory srv w arguments
      = handle_list_directory srv w (<[ KEY_PATH := VStr (lit ".") ]> arguments)
      /\ call_tool srv w (lit "list_directory") arguments
         = call_tool srv w (lit "list_directory")
             (<[ KEY_PATH := VStr (lit ".") ]> arguments)).
Proof.
  split; [repeat constructor|].
  intros H.
  assert (E : handle_list_directory srv w arguments
              = handle_list_directory srv w (<[ KEY_PATH := VStr (lit ".") ]> arguments)).
  { unfold handle_list_directory. rewrite lookup_insert_eq, H. reflexivity. }
  split; [exact E|]. rewrite !call_tool_list_directory, E. reflexivity.
Qed.

Lemma list_directory_path_defaults_to_dot_witness :
  handle_list_directory Demo.srv Demo.w ∅
  = handle_list_directory Demo.srv Demo.w (<[ KEY_PATH := VStr (lit ".") ]> ∅).
Proof.
  destruct (list_directory_path_defaults_to_dot Demo.srv Demo.w ∅) as [_ H].
  destruct (H eq_refl) as [E _]. exact E.
Defined.

(** X5.  A "max_lines" that is not a number (null, a string, a list, an
    object) is only looked at once a line has been read.  For a
    readable text file inside the root: with no line in it,
    [read_file] returns the empty contents; with at least one line,
    the handler raises TypeError and returns nothing of the file, and
    [call_tool] answers with the text of that error. *)
Theorem read_file_cap_not_a_number (srv : server) (w : world)
    (arguments : gmap str value) (s : str) (p : Path) (d : list Z) (mt : Z) :
  arguments !! KEY_PATH = Some (VStr s) -> s <> [] ->
  as_number (default (VInt 100) (arguments !! KEY_MAX_LINES)) = None ->
  resolves_inside srv w s p ->
  stat_of w p = Some (File d mt true) ->
  utf8_valid d = true ->
  (text_lines d = [] ->
     outcome (handle_read_file srv w arguments) = inr (text_result (read_header p)))
  /\ (text_lines d <> [] ->
      exists e, outcome (handle_read_file srv w arguments) = inl e
                /\ exn_cls e = TypeError
                /\ outcome (call_tool srv w (lit "read_file") arguments)
                   = inr (text_result (lit "Error: " ++ exn_msg e))).
Proof.
  intros Ha Hs Hn Hin Hst Hv.
  pose proof (handle_read_file_outcome srv w arguments s p d mt Ha Hs Hin Hst) as Ho.
  rewrite (file_iter_lines CHUNK_SIZE d CHUNK_SIZE_pos Hv) in Ho. cbn [fst snd] in Ho.
  split; intros HL.
  - rewrite Ho, HL. cbn [read_loop join]. rewrite app_nil_r. reflexivity.
  - destruct (text_lines d) as [|l L]; [contradiction|].
    cbn [read_loop] in Ho. rewrite Hn in Ho. cbn in Ho.
    eexists. split; [exact Ho|]. split; [reflexivity|].
    rewrite call_tool_read_file. unfold at_boundary, try_except.
    destruct (handle_read_file srv w arguments) as [t r]. unfold outcome in *.
    cbn [snd] in *. subst r. reflexivity.
Qed.

Lemma read_file_cap_not_a_number_witness :
  exists e,
    outcome (handle_read_file Demo.srv Demo.w
               (<[ KEY_MAX_LINES := VStr (lit "5") ]> (Demo.args1 "notes.txt"))) = inl e
    /\ exn_cls e = TypeError.
Proof.
  pose (p := {| p_abs := true; p_parts := [lit "srv"; lit "data"; lit "notes.txt"] |}).
  destruct (read_file_cap_not_a_number Demo.srv Demo.w
              (<[ KEY_MAX_LINES := VStr (lit "5") ]> (Demo.args1 "notes.txt"))
              (lit "notes.txt") p
              (lit ("alpha  " ++ Demo.nl ++ "beta" ++ Demo.nl ++ "gamma" ++ Demo.nl))
              1700000000) as [_ H].
  - reflexivity.
  - discriminate.
  - reflexivity.
  - repeat split.
  - reflexivity.
  - reflexivity.
  - destruct H as (e & He & Hc & _); [vm_compute; discriminate|].
    exists e. split; assumption.
Defined.

(* ===================================================================== *)
(** ** Further properties: is_path_allowed *)
(* ===================================================================== *)

(** X6.  [is_path_allowed] never raises, whatever it is given.  For an
    absolute path string it answers [True] exactly when [resolve_path]
    returns a path rather than raising. *)
Theorem is_path_allowed_agrees_on_absolute (srv : server) (w : world) :
  (forall v, exists t b, is_path_allowed srv w v = (t, inr b))
  /\ (forall s, isabs s = true ->
        outcome (is_path_allowed srv w (VStr s))
        = inr (match outcome (resolve_path srv w (VStr s)) with
               | inr _ => true
               | inl _ => false
               end)).
Proof.
  split.
  - intros v. unfold is_path_allowed, try_except.
    destruct (match v with VStr s => _ | _ => _ end) as [t [e|b]]; simpl; eauto.
  - intros s Habs. rewrite resolve_path_str. unfold requested. rewrite Habs.
    unfold is_path_allowed, Path_resolve, try_except, io_bind, emit, ret, raise, outcome,
      confine.
    destruct (joinrealpath _ _ _ _) as [e|q]; cbn [fst snd]; [reflexivity|].
    destruct (startswith _ _); reflexivity.
Qed.

Lemma is_path_allowed_agrees_on_absolute_witness :
  outcome (is_path_allowed Demo.srv Demo.w (VStr (lit "/srv/data/out/passwd"))) = inr false.
Proof.
  destruct (is_path_allowed_agrees_on_absolute Demo.srv Demo.w) as [_ H].
  rewrite (H (lit "/srv/data/out/passwd") eq_refl). reflexivity.
Defined.

(** On a relative path the two differ: [is_path_allowed] resolves
    notes.txt from the working directory /home and refuses it, while
    [resolve_path] resolves it from the root and accepts it. *)
Example is_path_allowed_relative_differs :
  outcome (is_path_allowed Demo.srv Demo.w (VStr (lit "notes.txt"))) = inr false
  /\ outcome (resolve_path Demo.srv Demo.w (VStr (lit "notes.txt")))
     = inr {| p_abs := true; p_parts := [lit "srv"; lit "data"; lit "notes.txt"] |}.
Proof. split; reflexivity. Qed.

(* ===================================================================== *)
(** ** Further properties: where the handlers look *)
(* ===================================================================== *)

Lemma io_under_ret {A} (p : Path) (a : A) : io_under p (ret a).
Proof. constructor. Qed.

Lemma io_under_raise {A} (p : Path) (e : exn) : io_under p (@raise A e).
Proof. constructor. Qed.

Lemma io_under_bind {A B} (p : Path) (m : io A) (k : A -> io B) :
  io_under p m -> (forall a, outcome m = inr a -> io_under p (k a)) ->
  io_under p (io_bind m k).
Proof.
  unfold io_under. destruct m as [t [e|a]]; intros Hm Hk; [exact Hm|].
  specialize (Hk a eq_refl). unfold io_bind. destruct (k a) as [t' r].
  cbn [fst] in *. apply Forall_app. split; assumption.
Qed.

Lemma io_under_if {A} (p : Path) (b : bool) (m1 m2 : io A) :
  io_under p m1 -> io_under p m2 -> io_under p (if b then m1 else m2).
Proof. destruct b; auto. Qed.

Lemma io_under_try_cls {A} (p : Path) cls (m h : io A) :
  io_under p m -> io_under p h -> io_under p (try_except_cls cls m h).
Proof.
  unfold io_under, try_except_cls. destruct m as [t [e|a]]; intros Hm Hh; [|exact Hm].
  destruct (cls (exn_cls e)); [|exact Hm]. destruct h as [t' r]. cbn [fst] in *.
  apply Forall_app. split; assumption.
Qed.

Lemma io_under_stat_test (test : inode -> bool) (p q : Path) (w : world) :
  on_or_below p (EvStat q) -> io_under p (stat_test test w q).
Proof.
  intros H. unfold io_under, stat_test, io_bind, emit.
  destruct (stat_result w q) as [e|n]; [destruct (ignore_error e)|];
    (constructor; [exact H|constructor]).
Qed.

Lemma io_under_exists (p q : Path) (w : world) :
  on_or_below p (EvStat q) -> io_under p (Path_exists w q).
Proof. apply io_under_stat_test. Qed.

Lemma io_under_is_dir (p q : Path) (w : world) :
  on_or_below p (EvStat q) -> io_under p (Path_is_dir w q).
Proof. apply io_under_stat_test. Qed.

Lemma io_under_is_file (p q : Path) (w : world) :
  on_or_below p (EvStat q) -> io_under p (Path_is_file w q).
Proof. apply io_under_stat_test. Qed.

Lemma io_under_stat (p q : Path) (w : world) :
  on_or_below p (EvStat q) -> io_under p (Path_stat w q).
Proof.
  intros H. unfold io_under, Path_stat, io_bind, emit.
  destruct (stat_result w q); (constructor; [exact H|constructor]).
Qed.

Lemma io_under_open (p : Path) (w : world) : io_under p (open_text w p).
Proof.
  unfold io_under, open_text, io_bind, emit.
  destruct (stat_result w p) as [e|[d mt [|]|es mt sz|t]];
    (constructor; [left; reflexivity|constructor]).
Qed.

Lemma Path_iterdir_children (p : Path) (w : world) (l : list Path) :
  outcome (Path_iterdir w p) = inr l ->
  forall e, e ∈ l -> exists n, e = {| p_abs := p_abs p; p_parts := p_parts p ++ [n] |}.
Proof.
  unfold Path_iterdir, io_bind, emit, outcome.
  destruct (stat_result w p) as [e0|[d mt r|es mt sz|t]]; try discriminate.
  cbn. intros H e He. inversion H; subst l.
  apply list_elem_of_In, in_map_iff in He as (x & <- & _). eauto.
Qed.

Lemma io_under_iterdir (p : Path) (w : world) : io_under p (Path_iterdir w p).
Proof.
  unfold io_under, Path_iterdir, io_bind, emit.
  destruct (stat_result w p) as [e0|[d mt r|es mt sz|t]];
    (constructor; [left; reflexivity|constructor]).
Qed.

Lemma io_under_render (p : Path) (w : world) (e : Path) :
  on_or_below p (EvStat e) -> io_under p (render_entry w e).
Proof.
  intros H. unfold render_entry.
  apply io_under_bind; [apply io_under_is_dir; exact H|]. intros isd _.
  apply io_under_bind; [apply io_under_is_file; exact H|]. intros isf _.
  apply io_under_bind.
  { destruct isf; [|apply io_under_ret].
    apply io_under_bind; [apply io_under_stat; exact H|]. intros; apply io_under_ret. }
  intros sz _. apply io_under_bind; [apply io_under_is_file; exact H|].
  intros; apply io_under_ret.
Qed.

Lemma io_under_for_each (p : Path) (w : world) (l : list Path) :
  (forall e, e ∈ l -> on_or_below p (EvStat e)) ->
  io_under p (for_each (render_entry w) l).
Proof.
  induction l as [|e l IH]; intros H; [apply io_under_ret|].
  cbn [for_each]. apply io_under_bind.
  { apply io_under_render. apply H. left. }
  intros y _. apply io_under_bind.
  { apply IH. intros e' He'. apply H. right. exact He'. }
  intros; apply io_under_ret.
Qed.

Lemma startswith_app_r (s x pre : str) :
  startswith s pre = true -> startswith (s ++ x) pre = true.
Proof.
  revert s. induction pre as [|c pre IH]; intros s H; [apply startswith_nil|].
  destruct s as [|d s]; [discriminate|]. simpl in *.
  destruct (c =? d); [apply IH; exact H|discriminate].
Qed.

Lemma join_snoc (sep : str) (l : list str) (x y : str) :
  join sep ((x :: l) ++ [y]) = join sep (x :: l) ++ sep ++ y.
Proof.
  revert x. induction l as [|z l IH]; intros x; [reflexivity|].
  change ((x :: z :: l) ++ [y]) with (x :: ((z :: l) ++ [y])).
  cbn [app]. rewrite !join_cons2. change (z :: l ++ [y]) with ((z :: l) ++ [y]).
  rewrite IH, <- !app_assoc. reflexivity.
Qed.

(** The string of a child begins with the string of its directory. *)
Lemma child_str_startswith (p : Path) (n : str) :
  p_abs p = true ->
  startswith (Path_str {| p_abs := p_abs p; p_parts := p_parts p ++ [n] |}) (Path_str p)
  = true.
Proof.
  intros Habs. unfold Path_str. cbn [p_abs p_parts]. rewrite Habs.
  destruct (p_parts p) as [|x l].
  - cbn [app join startswith]. rewrite Z.eqb_refl. apply startswith_nil.
  - rewrite join_snoc. cbn [startswith]. rewrite Z.eqb_refl. apply startswith_app_l.
Qed.

Lemma startswith_trans (a b c : str) :
  startswith a b = true -> startswith b c = true -> startswith a c = true.
Proof.
  revert a b. induction c as [|x c IH]; intros a b Hab Hbc; [apply startswith_nil|].
  destruct b as [|y b]; [discriminate|]. destruct a as [|z a]; [discriminate|].
  simpl in *. destruct (x =? y) eqn:Exy; [|discriminate].
  destruct (y =? z) eqn:Eyz; [|discriminate].
  apply Z.eqb_eq in Exy, Eyz. subst y z.
  rewrite Z.eqb_refl. exact (IH a b Hab Hbc).
Qed.

Lemma startswith_refl (a : str) : startswith a a = true.
Proof. rewrite <- (app_nil_r a) at 1. apply startswith_app_l. Qed.

Lemma on_or_below_accessed (root p : Path) (ev : event) :
  p_abs p = true -> startswith (Path_str p) (Path_str root) = true ->
  on_or_below p ev -> accessed_below root ev.
Proof.
  intros Habs Hp. assert (H : forall q, q = p \/ (exists n, q = {| p_abs := p_abs p;
                                   p_parts := p_parts p ++ [n] |}) ->
                              startswith (Path_str q) (Path_str root) = true).
  { intros q [->|[n ->]]; [exact Hp|].
    exact (startswith_trans _ _ _ (child_str_startswith p n Habs) Hp). }
  destruct ev; simpl; auto.
Qed.

(** What [resolve_path] leaves in the trace, and what it returns. *)
Lemma resolve_path_cases (srv : server) (w : world) (v : value) :
  (exists e, resolve_path srv w v = ([], inl e))
  \/ (exists r e, resolve_path srv w v = ([EvResolve r], inl e))
  \/ (exists r p, resolve_path srv w v = ([EvResolve r], inr p)
                  /\ p_abs p = true
                  /\ startswith (Path_str p) (Path_str (allowed_path srv)) = true).
Proof.
  destruct v as [| | |s| |]; try (left; eexists; reflexivity).
  right. rewrite resolve_path_str. unfold confine.
  destruct (joinrealpath _ _ _ _) as [e|q]; [left; eauto|].
  destruct (startswith _ _) eqn:E; [right|left; eauto].
  eexists _, _. split; [reflexivity|]. split; [reflexivity|exact E].
Qed.

(** A handler that resolves first and then stays on the resolved path
    leaves a trace of the expected shape. *)
Lemma resolve_then_under {A} (srv : server) (w : world) (v : value) (k : Path -> io A) :
  (forall p, io_under p (k p)) ->
  resolved_then_below (allowed_path srv) (fst (io_bind (resolve_path srv w v) k)).
Proof.
  intros Hk.
  destruct (resolve_path_cases srv w v) as [[e ->]|[(r & e & ->)|(r & p & -> & Ha & Hs)]].
  - exact I.
  - split; [eauto|constructor].
  - specialize (Hk p). unfold io_under in Hk. unfold io_bind.
    destruct (k p) as [t' res]. cbn [fst app] in *. split; [eauto|].
    eapply Forall_impl; [exact Hk|]. intros ev. apply on_or_below_accessed; assumption.
Qed.

Lemma here (p : Path) : on_or_below p (EvStat p).
Proof. left. reflexivity. Qed.

Lemma handle_list_directory_trace (srv : server) (w : world) (arguments : gmap str value) :
  resolved_then_below (allowed_path srv) (fst (handle_list_directory srv w arguments)).
Proof.
  unfold handle_list_directory. apply resolve_then_under. intros p.
  apply io_under_bind; [apply io_under_exists, here|]. intros ex _.
  apply io_under_if; [apply io_under_ret|].
  apply io_under_bind; [apply io_under_is_dir, here|]. intros isd _.
  apply io_under_if; [apply io_under_ret|].
  apply io_under_bind; [apply io_under_iterdir|]. intros ch Hch.
  apply io_under_bind; [|intros; apply io_under_ret].
  apply io_under_for_each. intros e He. unfold sorted in He.
  rewrite merge_sort_Permutation in He.
  right. exact (Path_iterdir_children p w ch Hch e He).
Qed.

Lemma handle_read_file_trace (srv : server) (w : world) (arguments : gmap str value) :
  resolved_then_below (allowed_path srv) (fst (handle_read_file srv w arguments)).
Proof.
  unfold handle_read_file. destruct (negb (truthy _)); [exact I|].
  apply resolve_then_under. intros p.
  apply io_under_bind; [apply io_under_exists, here|]. intros ex _.
  apply io_under_if; [apply io_under_ret|].
  apply io_under_bind; [apply io_under_is_file, here|]. intros isf _.
  apply io_under_if; [apply io_under_ret|].
  apply io_under_try_cls; [|apply io_under_ret].
  apply io_under_bind; [apply io_under_open|]. intros f _.
  destruct (read_loop _ _ _ _ _); [apply io_under_raise|apply io_under_ret].
Qed.

Lemma handle_get_file_info_trace (srv : server) (w : world) (arguments : gmap str value) :
  resolved_then_below (allowed_path srv) (fst (handle_get_file_info srv w arguments)).
Proof.
  unfold handle_get_file_info. destruct (negb (truthy _)); [exact I|].
  apply resolve_then_under. intros p.
  apply io_under_bind; [apply io_under_exists, here|]. intros ex _.
  apply io_under_if; [apply io_under_ret|].
  apply io_under_bind; [apply io_under_stat, here|]. intros st _.
  apply io_under_bind; [apply io_under_is_dir, here|]. intros isd _.
  destruct (w_isoformat w (inode_mtime st)); [apply io_under_raise|apply io_under_ret].
Qed.

Lemma at_boundary_trace (m : io (list TextContent)) : fst (at_boundary m) = fst m.
Proof.
  destruct m as [t [e|l]]; [|reflexivity]. unfold at_boundary, try_except. cbn.
  apply app_nil_r.
Qed.

(** X7.  Whatever the tool name and the arguments, [call_tool] either
    touches nothing, or first resolves one path and after that only
    stats, lists and opens paths whose string begins with the string
    of the root; it resolves at most once. *)
Theorem accesses_follow_one_resolution (srv : server) (w : world) (tool : str)
    (arguments : gmap str value) :
  resolved_then_below (allowed_path srv) (fst (call_tool srv w tool arguments)).
Proof.
  unfold call_tool. fold (at_boundary
    (if bool_decide (tool = lit "list_directory") then handle_list_directory srv w arguments
     else if bool_decide (tool = lit "read_file") then handle_read_file srv w arguments
     else if bool_decide (tool = lit "get_file_info")
          then handle_get_file_info srv w arguments
          else ret (text_result (lit "Unknown tool: " ++ tool)))).
  rewrite at_boundary_trace.
  destruct (bool_decide (tool = lit "list_directory"));
    [apply handle_list_directory_trace|].
  destruct (bool_decide (tool = lit "read_file")); [apply handle_read_file_trace|].
  destruct (bool_decide (tool = lit "get_file_info"));
    [apply handle_get_file_info_trace|exact I].
Qed.

(* ===================================================================== *)
(** ** Further properties: what resolution returns *)
(* ===================================================================== *)

Lemma split_no_sep (s : str) : Forall (fun c => SEP ∉ c) (split SEP s).
Proof.
  induction s as [|d s IH]; cbn [split].
  - repeat constructor. apply not_elem_of_nil.
  - destruct (Z.eqb_spec d SEP) as [->|Hd].
    + constructor; [apply not_elem_of_nil|exact IH].
    + destruct (split SEP s) as [|x l]; [repeat constructor|].
      * intros H. apply elem_of_cons in H as [H|H]; [congruence|].
        apply elem_of_nil in H. exact H.
      * inversion IH; subst. constructor; [|assumption].
        intros H. apply elem_of_cons in H as [H|H]; [congruence|contradiction].
Qed.

Lemma parts_of_no_sep (s : str) : Forall (fun c => SEP ∉ c) (parts_of s).
Proof.
  unfold parts_of. apply Forall_forall. intros c Hc.
  apply list_elem_of_filter in Hc as [_ Hc].
  pose proof (split_no_sep s) as H. rewrite Forall_forall in H.
  apply H. exact Hc.
Qed.

Lemma joinrealpath_nil (fs : inode) (fuel : nat) (path : list str) :
  joinrealpath fs fuel path [] = inr path.
Proof. destruct fuel; reflexivity. Qed.

Lemma plain_parent (fs : inode) (path : list str) :
  plain fs path -> plain fs (parent path).
Proof.
  intros H. destruct H as [|path c H]; [constructor|].
  unfold parent. rewrite removelast_last. exact H.
Qed.

(** Where [joinrealpath] returns, it has expanded every link it met:
    it keeps paths plain. *)
Lemma joinrealpath_plain (fs : inode) (fuel : nat) :
  forall (rest base q : list str),
  plain fs base -> Forall (fun c => SEP ∉ c) rest ->
  joinrealpath fs fuel base rest = inr q -> plain fs q.
Proof.
  induction fuel as [|fuel IHf].
  - induction rest as [|c rest IH]; intros base q Hb Hr Hq.
    + rewrite joinrealpath_nil in Hq. inversion Hq; subst. exact Hb.
    + inversion Hr as [|? ? Hc Hr']; subst. rewrite joinrealpath_cons in Hq.
      destruct (is_skip c) eqn:Hs; [exact (IH _ _ Hb Hr' Hq)|].
      destruct (bool_decide (c = PARDIR)) eqn:Hp;
        [exact (IH _ _ (plain_parent _ _ Hb) Hr' Hq)|].
      destruct (encodable c) eqn:He; [|discriminate]. cbn [negb] in Hq.
      destruct (bool_decide (0 ∈ c)) eqn:Hz; [discriminate|].
      apply bool_decide_eq_false_1 in Hp, Hz.
      destruct (lstat fs (base ++ [c])) as [[d mt r|es mt sz|t]|] eqn:E;
        try discriminate;
        (apply (IH _ _ (plain_snoc fs base c Hb Hs Hp He Hz Hc
                          ltac:(intros t'; rewrite E; discriminate)) Hr' Hq)).
  - induction rest as [|c rest IH]; intros base q Hb Hr Hq.
    + rewrite joinrealpath_nil in Hq. inversion Hq; subst. exact Hb.
    + inversion Hr as [|? ? Hc Hr']; subst. rewrite joinrealpath_cons in Hq.
      destruct (is_skip c) eqn:Hs; [exact (IH _ _ Hb Hr' Hq)|].
      destruct (bool_decide (c = PARDIR)) eqn:Hp;
        [exact (IH _ _ (plain_parent _ _ Hb) Hr' Hq)|].
      destruct (encodable c) eqn:He; [|discriminate]. cbn [negb] in Hq.
      destruct (bool_decide (0 ∈ c)) eqn:Hz; [discriminate|].
      apply bool_decide_eq_false_1 in Hp, Hz.
      destruct (lstat fs (base ++ [c])) as [[d mt r|es mt sz|t]|] eqn:E;
        try (apply (IH _ _ (plain_snoc fs base c Hb Hs Hp He Hz Hc
                              ltac:(intros t'; rewrite E; discriminate)) Hr' Hq)).
      apply (IHf (split SEP t ++ rest) (if isabs t then [] else base) q);
        [destruct (isabs t); [constructor|exact Hb] | | exact Hq].
      apply Forall_app. split; [apply split_no_sep|exact Hr'].
Qed.

(** A plain path resolves to itself: what follows it is walked from it. *)
Lemma joinrealpath_of_plain (fs : inode) (fuel : nat) (root : list str) :
  plain fs root ->
  forall rest, joinrealpath fs fuel [] (root ++ rest) = joinrealpath fs fuel root rest.
Proof.
  induction 1 as [|path c Hp IH Hs Hd He Hz Hc Hl]; intros rest; [reflexivity|].
  rewrite <- app_assoc. cbn [app]. rewrite IH, joinrealpath_cons, Hs.
  rewrite bool_decide_eq_false_2 by exact Hd. rewrite He. cbn [negb].
  rewrite bool_decide_eq_false_2 by exact Hz.
  destruct (lstat fs (path ++ [c])) as [[d mt r|es mt sz|t]|] eqn:E; try reflexivity.
  exfalso. exact (Hl t eq_refl).
Qed.

Lemma joinrealpath_plain_self (fs : inode) (fuel : nat) (q : list str) :
  plain fs q -> joinrealpath fs fuel [] q = inr q.
Proof.
  intros Hp. pose proof (joinrealpath_of_plain fs fuel q Hp []) as H.
  rewrite app_nil_r, joinrealpath_nil in H. exact H.
Qed.

Lemma plain_no_sep (fs : inode) (path : list str) :
  plain fs path -> Forall (fun c => SEP ∉ c) path.
Proof.
  induction 1; [constructor|]. apply Forall_app. split; [assumption|].
  repeat constructor. assumption.
Qed.

Lemma plain_no_skip (fs : inode) (path : list str) :
  plain fs path -> Forall (fun c => is_skip c = false) path.
Proof.
  induction 1; [constructor|]. apply Forall_app. split; [assumption|].
  repeat constructor. assumption.
Qed.

Lemma split_one (x : str) : SEP ∉ x -> split SEP x = [x].
Proof.
  induction x as [|d x IH]; intros H; [reflexivity|]. cbn [split].
  destruct (Z.eqb_spec d SEP) as [->|Hd]; [exfalso; apply H; left|].
  rewrite IH; [reflexivity|]. intros Hx. apply H. right. exact Hx.
Qed.

Lemma split_app_sep (x s : str) :
  SEP ∉ x -> split SEP (x ++ SEP :: s) = x :: split SEP s.
Proof.
  induction x as [|d x IH]; intros H.
  - cbn [app split]. rewrite Z.eqb_refl. reflexivity.
  - cbn [app split]. destruct (Z.eqb_spec d SEP) as [->|Hd]; [exfalso; apply H; left|].
    rewrite IH; [reflexivity|]. intros Hx. apply H. right. exact Hx.
Qed.

(** [split] undoes [join]. *)
Lemma split_join (l : list str) :
  Forall (fun c => SEP ∉ c) l -> l <> [] -> split SEP (join [SEP] l) = l.
Proof.
  induction l as [|x l IH]; intros Hl Hne; [contradiction|].
  inversion Hl as [|? ? Hx Hl']; subst. destruct l as [|y l].
  - apply split_one. exact Hx.
  - rewrite join_cons2. cbn [app]. rewrite split_app_sep by exact Hx.
    rewrite IH; [reflexivity|exact Hl'|discriminate].
Qed.

Lemma filter_keep_all (l : list str) :
  Forall (fun c => is_skip c = false) l -> filter (fun c => is_skip c = false) l = l.
Proof.
  induction 1 as [|c l Hc Hl IH]; [reflexivity|].
  rewrite filter_cons_True by exact Hc. rewrite IH. reflexivity.
Qed.

(** Parsing the string of a resolved path gives the path back. *)
Lemma Path_of_str (fs : inode) (q : list str) :
  plain fs q ->
  Path_of (Path_str {| p_abs := true; p_parts := q |}) = {| p_abs := true; p_parts := q |}.
Proof.
  intros Hq. unfold Path_of, Path_str, isabs, parts_of. cbn [p_abs p_parts startswith].
  rewrite Z.eqb_refl, startswith_nil. f_equal.
  change (SEP :: join [SEP] q) with ([] ++ SEP :: join [SEP] q).
  rewrite (split_app_sep [] (join [SEP] q)) by apply not_elem_of_nil.
  rewrite filter_cons_False by (cbv; discriminate).
  destruct q as [|x q]; [reflexivity|].
  rewrite split_join; [|apply (plain_no_sep fs); exact Hq|discriminate].
  apply filter_keep_all, (plain_no_skip fs). exact Hq.
Qed.

Lemma not_elem_by_decide (c : Z) (s : str) : bool_decide (c ∉ s) = true -> c ∉ s.
Proof. apply bool_decide_eq_true_1. Qed.

Lemma isabs_Path_str (q : list str) :
  isabs (Path_str {| p_abs := true; p_parts := q |}) = true.
Proof.
  unfold isabs, Path_str. cbn [p_abs startswith]. rewrite Z.eqb_refl. apply startswith_nil.
Qed.

(** The string of a plain path that passes the check resolves to it. *)
Lemma resolve_path_of_plain (srv : server) (w : world) (q : list str) :
  plain (w_fs w) q ->
  startswith (Path_str {| p_abs := true; p_parts := q |}) (Path_str (allowed_path srv))
  = true ->
  resolve_path srv w (VStr (Path_str {| p_abs := true; p_parts := q |}))
  = ([EvResolve {| p_abs := true; p_parts := q |}], inr {| p_abs := true; p_parts := q |}).
Proof.
  intros Hp Hs. rewrite resolve_path_str. unfold requested.
  rewrite isabs_Path_str, (Path_of_str (w_fs w) q Hp). cbn [start_dir p_abs p_parts].
  rewrite (joinrealpath_plain_self _ _ _ Hp). unfold confine. rewrite Hs. reflexivity.
Qed.

(** In the small world the root /srv/data and /srv/data/sub hold no
    link. *)
Lemma Demo_root_plain : plain Demo.fs [lit "srv"; lit "data"].
Proof.
  change (plain Demo.fs (([] ++ [lit "srv"]) ++ [lit "data"])).
  repeat (apply plain_snoc;
          [ | reflexivity | intros E; vm_compute in E; discriminate E | reflexivity
            | apply not_elem_by_decide; vm_compute; reflexivity
            | apply not_elem_by_decide; vm_compute; reflexivity
            | intros t E; vm_compute in E; discriminate E ]).
  constructor.
Qed.

Lemma Demo_sub_plain : plain Demo.fs [lit "srv"; lit "data"; lit "sub"].
Proof.
  change (plain Demo.fs ([lit "srv"; lit "data"] ++ [lit "sub"])).
  apply plain_snoc;
    [ exact Demo_root_plain | reflexivity | intros E; vm_compute in E; discriminate E
      | reflexivity
      | apply not_elem_by_decide; vm_compute; reflexivity
      | apply not_elem_by_decide; vm_compute; reflexivity
      | intros t E; vm_compute in E; discriminate E ].
Qed.

(** X8.  A server accepts its own root when the root holds no link:
    the arguments "." and "" then resolve to the root itself, whatever
    the working directory, and pass the check. *)
Theorem root_resolves_to_itself (w : world) (srv : server) :
  p_abs (allowed_path srv) = true ->
  plain (w_fs w) (p_parts (allowed_path srv)) ->
  resolve_path srv w (VStr (lit ".")) = ([EvResolve (allowed_path srv)], inr (allowed_path srv))
  /\ resolve_path srv w (VStr []) = ([EvResolve (allowed_path srv)], inr (allowed_path srv)).
Proof.
  intros Habs Hp. destruct srv as [[ab q]]. cbn [allowed_path p_abs p_parts] in *. subst ab.
  assert (H : forall s, isabs s = false -> parts_of s = [] ->
            resolve_path {| allowed_path := {| p_abs := true; p_parts := q |} |} w (VStr s)
            = ([EvResolve {| p_abs := true; p_parts := q |}],
               inr {| p_abs := true; p_parts := q |})).
  { intros s Hrel Hparts. rewrite resolve_path_str. unfold requested, Path_truediv.
    rewrite Hrel, Hparts. unfold start_dir. cbn [allowed_path p_abs p_parts].
    rewrite joinrealpath_of_plain by exact Hp. rewrite joinrealpath_nil, app_nil_r.
    unfold confine. cbn [allowed_path]. rewrite startswith_refl. reflexivity. }
  split; apply H; reflexivity.
Qed.

Lemma root_resolves_to_itself_witness :
  resolve_path Demo.srv (with_cwd Demo.w [lit "etc"]) (VStr (lit "."))
  = ([EvResolve (allowed_path Demo.srv)], inr (allowed_path Demo.srv)).
Proof.
  destruct (root_resolves_to_itself (with_cwd Demo.w [lit "etc"]) Demo.srv) as [H _].
  - reflexivity.
  - exact Demo_root_plain.
  - exact H.
Defined.

(** X9.  A path that [resolve_path] returns and that holds no link can
    be given back to it: its string is an absolute argument that
    resolves to the same path and is accepted again.  (The listing and
    the file information print that string.) *)
Theorem resolve_path_idempotent (srv : server) (w : world) (s : str) (t : list event)
    (p : Path) :
  resolve_path srv w (VStr s) = (t, inr p) ->
  plain (w_fs w) (p_parts p) ->
  resolve_path srv w (VStr (Path_str p)) = ([EvResolve p], inr p).
Proof.
  intros Hr Hp. rewrite resolve_path_str in Hr. inversion Hr as [[Ht Hc]]. clear Hr.
  unfold confine in Hc.
  destruct (joinrealpath _ _ _ _) as [e|q] eqn:E; [discriminate|].
  destruct (startswith _ _) eqn:Hs; [|discriminate]. inversion Hc; subst p. clear Hc.
  cbn [p_parts] in Hp. rewrite (resolve_path_of_plain srv w q Hp Hs).
  unfold confine. rewrite Hs. reflexivity.
Qed.

Lemma resolve_path_idempotent_witness :
  let p := {| p_abs := true; p_parts := [lit "srv"; lit "data"; lit "sub"] |} in
  resolve_path Demo.srv Demo.w (VStr (lit "/srv/data/sub")) = ([EvResolve p], inr p).
Proof.
  intros p.
  apply (resolve_path_idempotent Demo.srv Demo.w (lit "sub/../sub")
           [EvResolve {| p_abs := true;
                         p_parts := [lit "srv"; lit "data"; lit "sub"; lit "..";
                                     lit "sub"] |}] p).
  - reflexivity.
  - exact Demo_sub_plain.
Defined.

(* ===================================================================== *)
(** ** Further properties: what the check on strings accepts *)
(* ===================================================================== *)

Lemma startswith_component (x y s t : str) :
  SEP ∉ x -> SEP ∉ y ->
  startswith (x ++ SEP :: s) (y ++ SEP :: t) = true <-> x = y /\ startswith s t = true.
Proof.
  revert y. induction x as [|d x IH]; intros [|c y] Hx Hy; cbn [app startswith].
  - rewrite Z.eqb_refl. split; [intros H; split; [reflexivity|exact H]|intros [_ H]; exact H].
  - destruct (Z.eqb_spec c SEP) as [->|Hc]; [exfalso; apply Hy; left|].
    split; [discriminate|intros [H _]; discriminate].
  - destruct (Z.eqb_spec SEP d) as [<-|Hd]; [exfalso; apply Hx; left|].
    split; [discriminate|intros [H _]; discriminate].
  - destruct (Z.eqb_spec c d) as [->|Hcd].
    + rewrite IH;
        [|intros H; apply Hx; right; exact H|intros H; apply Hy; right; exact H].
      split; intros [H1 H2]; split; congruence.
    + split; [discriminate|intros [H _]; congruence].
Qed.

Lemma startswith_last_component (x a tail : str) :
  SEP ∉ a -> tail = [] \/ (exists r, tail = SEP :: r) ->
  startswith (x ++ tail) a = startswith x a.
Proof.
  intros Ha Ht. revert x. induction a as [|c a IH]; intros x.
  - rewrite !startswith_nil. reflexivity.
  - destruct x as [|d x]; cbn [app].
    + destruct Ht as [->|[r ->]]; [reflexivity|]. cbn [startswith].
      destruct (Z.eqb_spec c SEP) as [->|]; [exfalso; apply Ha; left|reflexivity].
    + cbn [startswith]. destruct (c =? d); [|reflexivity].
      apply IH. intros H. apply Ha. right. exact H.
Qed.

Lemma startswith_short (x y t : str) :
  SEP ∉ x -> startswith x (y ++ SEP :: t) = false.
Proof.
  revert y. induction x as [|d x IH]; intros y Hx.
  - destruct y; reflexivity.
  - destruct y as [|c y]; cbn [app startswith].
    + destruct (Z.eqb_spec SEP d) as [<-|]; [exfalso; apply Hx; left|reflexivity].
    + destruct (c =? d); [|reflexivity]. apply IH. intros H. apply Hx. right. exact H.
Qed.

(** On joined components the test on characters is a test on
    components, up to the last one of the root. *)
Lemma startswith_join (pre : list str) (a : str) :
  a <> [] -> Forall (fun c => SEP ∉ c) (pre ++ [a]) ->
  forall q, Forall (fun c => SEP ∉ c) q ->
  (startswith (join [SEP] q) (join [SEP] (pre ++ [a])) = true
   <-> exists b rest, q = pre ++ b :: rest /\ startswith b a = true).
Proof.
  intros Ha. induction pre as [|x pre IH]; intros Hroot q Hq.
  - cbn [app join]. inversion Hroot as [|? ? Hsa _]; subst.
    destruct q as [|b [|c r]].
    + cbn [join]. destruct a; [contradiction|]. split; [discriminate|].
      intros (b & rest & H & _). discriminate.
    + cbn [join]. split; [intros H; exists b, []; auto|].
      intros (b' & rest & H & Hb). inversion H; subst. exact Hb.
    + rewrite join_cons2. cbn [app].
      rewrite (startswith_last_component b a (SEP :: join [SEP] (c :: r)) Hsa)
        by (right; eauto).
      split; [intros H; exists b, (c :: r); auto|].
      intros (b' & rest & H & Hb). inversion H; subst. exact Hb.
  - inversion Hroot as [|? ? Hx Hroot']; subst.
    assert (Hj : join [SEP] ((x :: pre) ++ [a]) = x ++ SEP :: join [SEP] (pre ++ [a])).
    { destruct pre; reflexivity. }
    rewrite Hj. destruct q as [|b [|c r]].
    + cbn [join]. split; [destruct x; discriminate|].
      intros (b & rest & H & _). discriminate.
    + cbn [join]. inversion Hq as [|? ? Hb _]; subst.
      rewrite startswith_short by exact Hb. split; [discriminate|].
      intros (b' & rest & H & _). inversion H as [[H1 H2]].
      destruct pre; discriminate.
    + rewrite join_cons2. cbn [app]. inversion Hq as [|? ? Hb Hq']; subst.
      rewrite startswith_component by assumption.
      rewrite (IH Hroot' (c :: r) Hq'). split.
      * intros (-> & b' & rest & H & Hb'). exists b', rest. rewrite H. auto.
      * intros (b' & rest & H & Hb'). inversion H; subst. eauto.
Qed.

(** X10.  Which resolved paths [resolve_path] lets through, for a root
    with parent components [pre] and last name [a]: exactly those that
    continue [pre] with a component beginning with [a].  These are the
    root and its descendants, and also every sibling of the root whose
    name extends the root's name, with all that lies below it. *)
Theorem check_accepts_by_name_prefix (srv : server) (w : world) (s : str)
    (pre : list str) (a : str) (q : list str) :
  allowed_path srv = {| p_abs := true; p_parts := pre ++ [a] |} ->
  a <> [] -> Forall (fun c => SEP ∉ c) (pre ++ [a]) ->
  joinrealpath (w_fs w) (w_fuel w) (start_dir w (requested srv s))
    (p_parts (requested srv s)) = inr q ->
  (outcome (resolve_path srv w (VStr s)) = inr {| p_abs := true; p_parts := q |}
   <-> exists b rest, q = pre ++ b :: rest /\ startswith b a = true)
  /\ (outcome (resolve_path srv w (VStr s)) = inl access_denied
      <-> ~ exists b rest, q = pre ++ b :: rest /\ startswith b a = true).
Proof.
  intros Hroot Ha Hsep Hq.
  assert (Hqs : Forall (fun c => SEP ∉ c) q).
  { apply (plain_no_sep (w_fs w)). refine (joinrealpath_plain _ _ _ _ _ _ _ Hq).
    - unfold requested, start_dir, Path_truediv, Path_of. rewrite Hroot.
      destruct (isabs s) eqn:Hi; cbn [p_abs]; rewrite ?Hi; constructor.
    - unfold requested, Path_truediv, Path_of. rewrite Hroot.
      destruct (isabs s); cbn [p_parts]; [apply parts_of_no_sep|].
      apply Forall_app. split; [exact Hsep|apply parts_of_no_sep]. }
  pose proof (startswith_join pre a Ha Hsep q Hqs) as Hj.
  rewrite resolve_path_str, Hq. unfold confine, outcome. cbn [snd].
  rewrite Hroot. unfold Path_str. cbn [p_abs p_parts startswith]. rewrite Z.eqb_refl.
  destruct (startswith (join [SEP] q) (join [SEP] (pre ++ [a]))) eqn:E.
  - split; split; try discriminate.
    + intros _. apply Hj. reflexivity.
    + intros _. reflexivity.
    + intros Hn. exfalso. apply Hn, Hj. reflexivity.
  - split; split; try discriminate.
    + intros H. apply Hj in H. discriminate.
    + intros _ H. apply Hj in H. discriminate.
    + intros _. reflexivity.
Qed.

Lemma check_accepts_by_name_prefix_witness :
  outcome (resolve_path Demo.srv Demo.w (VStr (lit "../data_private")))
  = inr {| p_abs := true; p_parts := [lit "srv"; lit "data_private"] |}.
Proof.
  destruct (check_accepts_by_name_prefix Demo.srv Demo.w (lit "../data_private")
              [lit "srv"] (lit "data") [lit "srv"; lit "data_private"]) as [[_ H] _].
  - reflexivity.
  - discriminate.
  - repeat constructor; apply not_elem_by_decide; vm_compute; reflexivity.
  - reflexivity.
  - apply H. exists (lit "data_private"), []. split; reflexivity.
Defined.

(* ===================================================================== *)
(** ** Further properties: the listing and the order of the directory *)
(* ===================================================================== *)

Lemma str_cmp_eq (a b : str) : str_cmp a b = Eq -> a = b.
Proof.
  revert b. induction a as [|x a IH]; intros [|y b]; simpl; try discriminate; auto.
  destruct (Z.compare_spec x y); try discriminate. intros Hr. subst. f_equal. auto.
Qed.

Lemma str_le_trans (a b c : str) : str_le a b -> str_le b c -> str_le a c.
Proof.
  unfold str_le. revert b c. induction a as [|x a IH]; intros [|y b] [|z c];
    simpl; try congruence.
  destruct (Z.compare_spec x y) as [->|Hxy|Hxy]; [| |congruence].
  - destruct (Z.compare_spec y z) as [->|Hyz|Hyz]; [apply IH|congruence|congruence].
  - destruct (Z.compare_spec y z) as [->|Hyz|Hyz]; [| |congruence]; intros _ _.
    + destruct (Z.compare_spec x z); [lia|congruence|lia].
    + destruct (Z.compare_spec x z); [lia|congruence|lia].
Qed.

Lemma str_lt_trans (a b c : str) :
  str_cmp a b = Lt -> str_cmp b c = Lt -> str_cmp a c = Lt.
Proof.
  intros Hab Hbc.
  assert (Hle : str_le a c) by (apply (str_le_trans a b c); unfold str_le; congruence).
  unfold str_le in Hle. destruct (str_cmp a c) eqn:E; [|reflexivity|contradiction].
  apply str_cmp_eq in E. subst c. rewrite (str_cmp_antisym a b), Hab in Hbc. discriminate.
Qed.

Lemma parts_cmp_eq (p q : list str) : parts_cmp p q = Eq -> p = q.
Proof.
  revert q. induction p as [|x p IH]; intros [|y q]; simpl; try discriminate; auto.
  destruct (str_cmp x y) eqn:E; try discriminate.
  apply str_cmp_eq in E. intros H. subst. f_equal. auto.
Qed.

#[global] Instance path_le_trans : Transitive path_le.
Proof.
  intros [a1 p] [a2 q] [a3 r]. unfold path_le. cbn [p_parts]. clear a1 a2 a3.
  revert q r. induction p as [|x p IH]; intros [|y q] [|z r]; simpl; try congruence.
  destruct (str_cmp x y) eqn:Exy; [| |congruence].
  - apply str_cmp_eq in Exy. subst y.
    destruct (str_cmp x z) eqn:Exz; [apply IH|congruence|congruence].
  - destruct (str_cmp y z) eqn:Eyz; [| |congruence]; intros _ _.
    + apply str_cmp_eq in Eyz. subst z. rewrite Exy. congruence.
    + rewrite (str_lt_trans x y z Exy Eyz). congruence.
Qed.

(** Sorting the children of a directory depends on which names it
    holds, not on the order in which it holds them. *)
Lemma sorted_children_unique (dir : Path) (names1 names2 : list str) :
  names1 ≡ₚ names2 ->
  sorted (map (child dir) names1) = sorted (map (child dir) names2).
Proof.
  intros Hperm. unfold sorted.
  apply (Sorted_unique_strong path_le).
  - intros x1 x2 H1 H2 H12 H21.
    rewrite merge_sort_Permutation in H1, H2.
    apply list_elem_of_In, in_map_iff in H1 as (a & <- & _).
    apply list_elem_of_In, in_map_iff in H2 as (b & <- & _).
    unfold path_le, child in *. cbn [p_parts] in *.
    rewrite parts_cmp_siblings in H12, H21.
    rewrite (str_cmp_antisym a b) in H21.
    destruct (str_cmp a b) eqn:E; try (simpl in *; congruence).
    apply str_cmp_eq in E. subst. reflexivity.
  - apply Sorted_merge_sort; apply _.
  - apply Sorted_merge_sort; apply _.
  - rewrite !merge_sort_Permutation. apply Permutation_map. exact Hperm.
Qed.

Lemma render_entry_same (w1 w2 : world) (e : Path) :
  stat_result w1 e = stat_result w2 e -> render_entry w1 e = render_entry w2 e.
Proof.
  intros H. unfold render_entry, Path_is_dir, Path_is_file, Path_stat, stat_test.
  rewrite H. reflexivity.
Qed.

Lemma for_each_render_same (w1 w2 : world) (l : list Path) :
  Forall (fun e => stat_result w1 e = stat_result w2 e) l ->
  for_each (render_entry w1) l = for_each (render_entry w2) l.
Proof.
  induction 1 as [|e l He Hl IH]; [reflexivity|].
  cbn [for_each]. rewrite (render_entry_same _ _ _ He), IH. reflexivity.
Qed.

(** X11.  The listing does not depend on the order in which the
    directory stores its entries: two states of the filesystem in which
    the directory holds the same names, in any order, with the same
    results of [stat] for them, give the same answer. *)
Theorem listing_ignores_directory_order (srv : server) (w1 w2 : world)
    (arguments : gmap str value) (s : str) (t1 t2 : list event) (p : Path)
    es1 mt1 sz1 es2 mt2 sz2 :
  default (VStr (lit ".")) (arguments !! KEY_PATH) = VStr s ->
  resolve_path srv w1 (VStr s) = (t1, inr p) ->
  resolve_path srv w2 (VStr s) = (t2, inr p) ->
  stat_of w1 p = Some (Dir es1 mt1 sz1) ->
  stat_of w2 p = Some (Dir es2 mt2 sz2) ->
  map fst es1 ≡ₚ map fst es2 ->
  Forall (fun n => stat_result w1 (child p n) = stat_result w2 (child p n)) (map fst es1) ->
  outcome (handle_list_directory srv w1 arguments)
  = outcome (handle_list_directory srv w2 arguments).
Proof.
  intros Ha H1 H2 Hs1 Hs2 Hperm Hsame.
  rewrite (handle_list_directory_dir srv w1 arguments s t1 p es1 mt1 sz1 Ha H1 Hs1).
  rewrite (handle_list_directory_dir srv w2 arguments s t2 p es2 mt2 sz2 Ha H2 Hs2).
  rewrite <- (sorted_children_unique p _ _ Hperm).
  rewrite (for_each_render_same w1 w2); [reflexivity|].
  unfold sorted. rewrite merge_sort_Permutation. apply Forall_map. exact Hsame.
Qed.

(** The results of [stat] have to agree in their errors too.  A link
    to a name of 256 letters and a link to a missing name both name
    nothing, but [is_dir] raises on the first and returns [False] on
    the second. *)
Example listing_depends_on_the_error :
  let p := {| p_abs := true; p_parts := [lit "srv"; lit "data"] |} in
  stat_of Demo.w_long (child p (lit "far")) = stat_of Demo.w_gone (child p (lit "far"))
  /\ stat_of Demo.w_long (child p (lit "a.txt")) = stat_of Demo.w_gone (child p (lit "a.txt"))
  /\ outcome (handle_list_directory Demo.srv Demo.w_long ∅)
     = inl (oserror_of ENAMETOOLONG (child p (lit "far")))
  /\ outcome (handle_list_directory Demo.srv Demo.w_gone ∅)
     = inr (text_result (join [LF] [ lit "Contents of /srv/data:";
                                     lit "  [file] a.txt (1 bytes)";
                                     lit "  [file] far" ])).
Proof. vm_compute. repeat split. Qed.

Lemma listing_ignores_directory_order_witness :
  outcome (handle_list_directory Demo.srv (Demo.world_of Demo.fs_ab) ∅)
  = outcome (handle_list_directory Demo.srv (Demo.world_of Demo.fs_ba) ∅).
Proof.
  pose (p := {| p_abs := true; p_parts := [lit "srv"; lit "data"] |}).
  apply (listing_ignores_directory_order Demo.srv (Demo.world_of Demo.fs_ab)
           (Demo.world_of Demo.fs_ba) ∅ (lit ".") [EvResolve p] [EvResolve p] p
           [ (lit "a.txt", File (lit "a") 1700002000 true);
             (lit "b", Dir [] 1700002100 4096) ] 1700002200 4096
           [ (lit "b", Dir [] 1700002100 4096);
             (lit "a.txt", File (lit "a") 1700002000 true) ] 1700002200 4096).
  - reflexivity.
  - reflexivity.
  - reflexivity.
  - reflexivity.
  - reflexivity.
  - apply perm_swap.
  - repeat constructor.
Defined.

(* ===================================================================== *)
(** ** Further properties: start-up *)
(* ===================================================================== *)

Lemma namei_nil (fs : inode) (fuel : nat) (cur : list str) :
  namei fs fuel cur [] = inr cur.
Proof. destruct fuel; reflexivity. Qed.

Lemma namei_cons (fs : inode) (fuel : nat) (cur rest : list str) (c : str) :
  namei fs fuel cur (c :: rest)
  = match lstat fs cur with
    | Some (Dir _ _ _) =>
        if is_skip c then namei fs fuel cur rest
        else if bool_decide (c = PARDIR) then namei fs fuel (parent cur) rest
        else match lstat fs (cur ++ [c]) with
             | None => inl (if encodable c && too_long c then ENAMETOOLONG else ENOENT)
             | Some (Symlink t) =>
                 match fuel with
                 | O => inl ELOOP
                 | S fuel' =>
                     namei fs fuel' (if isabs t then [] else cur) (split SEP t ++ rest)
                 end
             | Some _ => namei fs fuel (cur ++ [c]) rest
             end
    | Some _ => inl ENOTDIR
    | None => inl ENOENT
    end.
Proof. destruct fuel; reflexivity. Qed.

Lemma lstat_lookup (fs : inode) (p : list str) (n : inode) :
  lstat fs p = Some n -> lookup_inode fs p = Some n.
Proof. unfold lstat. destruct (forallb storable p); [exact id|discriminate]. Qed.

Lemma lstat_storable (fs : inode) (p : list str) (n : inode) :
  lstat fs p = Some n -> forallb storable p = true.
Proof. unfold lstat. destruct (forallb storable p); [reflexivity|discriminate]. Qed.

Lemma lstat_encodable (fs : inode) (path : list str) (c : str) (n : inode) :
  lstat fs (path ++ [c]) = Some n -> encodable c = true.
Proof.
  intros H. apply lstat_storable in H. rewrite forallb_app in H.
  apply andb_prop in H as [_ H]. cbn [forallb] in H. rewrite andb_true_r in H.
  apply andb_prop in H as [H _]. exact H.
Qed.

Lemma assoc_names_ok (es : list (str * inode)) (c : str) (m : inode) :
  forallb (fun e => match e with
                    | (k, v) => negb (bool_decide (0 ∈ k)) && names_ok v
                    end) es = true ->
  assoc c es = Some m -> (0 ∉ c) /\ names_ok m = true.
Proof.
  induction es as [|[k v] es IH]; [discriminate|]. cbn [forallb assoc].
  intros H Ha. apply andb_prop in H as [Hkv Hes]. apply andb_prop in Hkv as [Hk Hv].
  destruct (decide (k = c)) as [->|]; [|exact (IH Hes Ha)].
  inversion Ha; subst m. split; [|exact Hv].
  apply negb_true_iff, bool_decide_eq_false_1 in Hk. exact Hk.
Qed.

Lemma names_ok_lookup (n : inode) (path : list str) (c : str) (m : inode) :
  names_ok n = true -> lookup_inode n (path ++ [c]) = Some m -> 0 ∉ c.
Proof.
  revert n. induction path as [|x path IH]; intros n Hn Hl.
  - cbn [app lookup_inode] in Hl. destruct n as [| es mt sz |]; try discriminate.
    destruct (assoc c es) as [m'|] eqn:E; [|discriminate].
    exact (proj1 (assoc_names_ok es c m' Hn E)).
  - cbn [app lookup_inode] in Hl. destruct n as [| es mt sz |]; try discriminate.
    destruct (assoc x es) as [m'|] eqn:E; [|discriminate].
    exact (IH m' (proj2 (assoc_names_ok es x m' Hn E)) Hl).
Qed.

(** Where the kernel finds something, [realpath] arrives at the same
    place. *)
Lemma namei_joinrealpath (fs : inode) :
  names_ok fs = true ->
  forall (n m : nat), (n <= m)%nat ->
  forall (rest cur q : list str),
  namei fs n cur rest = inr q -> joinrealpath fs m cur rest = inr q.
Proof.
  intros Hok. induction n as [|n IHn]; intros m Hnm;
    (induction rest as [|c rest IH]; intros cur q H;
     [rewrite namei_nil in H; inversion H; apply joinrealpath_nil|]);
    rewrite namei_cons in H; rewrite joinrealpath_cons;
    (destruct (lstat fs cur) as [[d0 mt0 r0|es0 mt0 sz0|t0]|]; try discriminate);
    (destruct (is_skip c); [exact (IH _ _ H)|]);
    (destruct (bool_decide (c = PARDIR)); [exact (IH _ _ H)|]);
    (destruct (lstat fs (cur ++ [c])) as [[d mt r|es mt sz|t]|] eqn:E; try discriminate);
    rewrite (lstat_encodable _ _ _ _ E); cbn [negb];
    (rewrite bool_decide_eq_false_2
       by (exact (names_ok_lookup fs cur c _ Hok (lstat_lookup _ _ _ E))));
    try exact (IH _ _ H).
  destruct m as [|m]; [lia|]. apply (IHn m); [lia|exact H].
Qed.

Lemma filter_filter_skip (l : list str) :
  filter (fun c => is_skip c = false) (filter (fun c => is_skip c = false) l)
  = filter (fun c => is_skip c = false) l.
Proof.
  apply filter_keep_all, Forall_forall. intros c Hc.
  apply list_elem_of_filter in Hc as [Hc _]. exact Hc.
Qed.

(** Resolution does not see empty and "." components. *)
Lemma joinrealpath_filter (fs : inode) (m : nat) :
  forall (l cur : list str),
  joinrealpath fs m cur (filter (fun c => is_skip c = false) l) = joinrealpath fs m cur l.
Proof.
  induction m as [|m IHm];
    (induction l as [|c l IH]; intros cur; [reflexivity|]);
    (destruct (is_skip c) eqn:Hs;
     [rewrite filter_cons_False by (rewrite Hs; discriminate);
      rewrite (joinrealpath_cons _ _ _ l), Hs; apply IH|]);
    rewrite filter_cons_True by exact Hs;
    rewrite !joinrealpath_cons, Hs;
    (destruct (bool_decide (c = PARDIR)); [apply IH|]);
    (destruct (encodable c); [cbn [negb]|reflexivity]);
    (destruct (bool_decide (0 ∈ c)); [reflexivity|]);
    (destruct (lstat fs (cur ++ [c])) as [[d mt r|es mt sz|t]|]; try apply IH).
  - reflexivity.
  - rewrite <- (IHm (split SEP t ++ l)), <- (IHm (split SEP t ++ filter _ l)).
    rewrite !filter_app, filter_filter_skip. reflexivity.
Qed.

Lemma present_parent (fs : inode) (path : list str) :
  present fs path -> present fs (parent path).
Proof.
  intros H. destruct H as [|path c n H]; [constructor|].
  unfold parent. rewrite removelast_last. exact H.
Qed.

(** What the kernel arrives at is present. *)
Lemma namei_present (fs : inode) (n : nat) :
  forall (rest cur q : list str),
  present fs cur -> namei fs n cur rest = inr q -> present fs q.
Proof.
  induction n as [|n IHn];
    (induction rest as [|c rest IH]; intros cur q Hp H;
     [rewrite namei_nil in H; inversion H; subst; exact Hp|]);
    rewrite namei_cons in H;
    (destruct (lstat fs cur) as [[d0 mt0 r0|es0 mt0 sz0|t0]|] eqn:Ec; try discriminate);
    (destruct (is_skip c) eqn:Hs; [exact (IH _ _ Hp H)|]);
    (destruct (bool_decide (c = PARDIR)) eqn:Hd;
     [exact (IH _ _ (present_parent _ _ Hp) H)|]);
    apply bool_decide_eq_false_1 in Hd;
    (destruct (lstat fs (cur ++ [c])) as [[d mt r|es mt sz|t]|] eqn:E; try discriminate);
    try (apply (IH (cur ++ [c]) q); [|exact H];
         eapply present_snoc; [exact Hp|rewrite Ec; reflexivity|exact Hs|exact Hd
                              |exact E|intros; discriminate]).
  apply (IHn (split SEP t ++ rest) (if isabs t then [] else cur) q); [|exact H].
  destruct (isabs t); [constructor|exact Hp].
Qed.

(** The kernel finds a present path where it is. *)
Lemma namei_of_present (fs : inode) (n : nat) (q : list str) :
  present fs q -> forall rest, namei fs n [] (q ++ rest) = namei fs n q rest.
Proof.
  induction 1 as [|path c nd Hp IH Hdir Hs Hd Hl Hn]; intros rest; [reflexivity|].
  rewrite <- app_assoc. cbn [app]. rewrite IH, namei_cons.
  destruct (lstat fs path) as [[d0 mt0 r0|es0 mt0 sz0|t0]|]; try discriminate.
  rewrite Hs, (bool_decide_eq_false_2 _ Hd), Hl.
  destruct nd as [d mt r|es mt sz|t]; try reflexivity.
  exfalso. exact (Hn t eq_refl).
Qed.

Lemma stat_of_present (w : world) (q : list str) :
  present (w_fs w) q ->
  stat_of w {| p_abs := true; p_parts := q |} = lstat (w_fs w) q.
Proof.
  intros Hp. unfold stat_of, stat_result, start_dir. cbn [p_abs p_parts].
  pose proof (namei_of_present (w_fs w) MAXSYMLINKS q Hp []) as H.
  rewrite app_nil_r, namei_nil in H. rewrite H.
  destruct (lstat (w_fs w) q); reflexivity.
Qed.

(** X12.  [main] either exits with status 1 or goes on to serve, and
    when it serves, the server was created without an exception and
    its root is an absolute path at which a directory exists: nothing
    but an existing directory is ever served. *)
Theorem main_serves_an_existing_directory (w : world) (argv : list str) :
  names_ok (w_fs w) = true ->
  (MAXSYMLINKS <= w_fuel w)%nat ->
  present (w_fs w) (w_cwd w) ->
  (exists msg, main w argv = Exit msg 1)
  \/ (exists t srv es mt sz,
        main w argv = Serve (t, inr srv)
        /\ p_abs (allowed_path srv) = true
        /\ stat_of w (allowed_path srv) = Some (Dir es mt sz)).
Proof.
  intros Hok Hfuel Hcwd. unfold main.
  destruct (length argv <? 2)%nat; [left; eauto|].
  set (dir := nth 1 argv []).
  destruct (os_path_isdir w dir) eqn:Hisdir; [right|left; eauto]. cbn [negb].
  unfold os_path_isdir, os_stat in Hisdir.
  destruct (bool_decide (dir = [])); [discriminate|].
  destruct (bool_decide (0 ∈ dir)); [discriminate|].
  destruct (namei _ _ _ _) as [e|q] eqn:Hn; [discriminate|].
  destruct (lstat (w_fs w) q) as [[d mt r|es mt sz|t]|] eqn:Hq; try discriminate.
  assert (Hj : joinrealpath (w_fs w) (w_fuel w) (start_dir w (Path_of dir))
                 (p_parts (Path_of dir)) = inr q).
  { cbn [Path_of p_parts]. unfold parts_of. rewrite joinrealpath_filter.
    apply (namei_joinrealpath _ Hok _ _ Hfuel). exact Hn. }
  assert (Hp : present (w_fs w) q).
  { apply (namei_present _ _ _ _ _ (if isabs dir as b return present (w_fs w) (if b then [] else w_cwd w)
                                      then present_root _ else Hcwd) Hn). }
  exists [EvResolve (Path_of dir)], {| allowed_path := {| p_abs := true; p_parts := q |} |},
    es, mt, sz.
  split; [|split; [reflexivity|]].
  - unfold create_filesystem_server, Path_resolve, io_bind, emit, ret. rewrite Hj. reflexivity.
  - cbn [allowed_path]. rewrite (stat_of_present w q Hp). exact Hq.
Qed.

Lemma main_serves_an_existing_directory_witness :
  exists t srv es mt sz,
    main Demo.w40 [lit "mcp_filesystem_server.py"; lit "data/sub/../out/../srv/data"]
    = Serve (t, inr srv)
    /\ p_abs (allowed_path srv) = true
    /\ stat_of Demo.w40 (allowed_path srv) = Some (Dir es mt sz).
Proof.
  destruct (main_serves_an_existing_directory Demo.w40
              [lit "mcp_filesystem_server.py"; lit "data/sub/../out/../srv/data"])
    as [[msg H]|H].
  - vm_compute. reflexivity.
  - unfold MAXSYMLINKS. simpl. lia.
  - change (present (w_fs Demo.w40) ([] ++ [lit "srv"])).
    eapply present_snoc; try reflexivity;
      [constructor|intros E; vm_compute in E; discriminate E|intros t E; discriminate E].
  - vm_compute in H. discriminate.
  - exact H.
Defined.

(* ===================================================================== *)
(** ** Further properties: caps beyond the end of the file *)
(* ===================================================================== *)

(** X13.  Once the cap covers the lines that can be read, raising it
    changes nothing: for a readable file inside the root, two integer
    caps that are both at least the number of lines the iteration
    yields give the same answer, be it the whole contents or the
    report that the file is not text. *)
Theorem read_file_cap_beyond_end (srv : server) (w : world)
    (args1 args2 : gmap str value) (s : str) (p : Path) (d : list Z) (mt n1 n2 : Z) :
  args1 !! KEY_PATH = Some (VStr s) -> args2 !! KEY_PATH = Some (VStr s) -> s <> [] ->
  default (VInt 100) (args1 !! KEY_MAX_LINES) = VInt n1 ->
  default (VInt 100) (args2 !! KEY_MAX_LINES) = VInt n2 ->
  resolves_inside srv w s p ->
  stat_of w p = Some (File d mt true) ->
  Z.of_nat (length (file_lines d)) <= n1 ->
  Z.of_nat (length (file_lines d)) <= n2 ->
  outcome (handle_read_file srv w args1) = outcome (handle_read_file srv w args2)
  /\ outcome (handle_read_file srv w args1)
     = if utf8_valid d
       then inr (text_result (read_header p ++ join [LF] (map rstrip (file_lines d))))
       else inr (text_result (not_a_text_file s)).
Proof.
  intros Ha1 Ha2 Hs Hn1 Hn2 Hin Hst Hl1 Hl2.
  assert (H : forall args n, args !! KEY_PATH = Some (VStr s) ->
            default (VInt 100) (args !! KEY_MAX_LINES) = VInt n ->
            Z.of_nat (length (file_lines d)) <= n ->
            outcome (handle_read_file srv w args)
            = if utf8_valid d
              then inr (text_result (read_header p
                                     ++ join [LF] (map rstrip (file_lines d))))
              else inr (text_result (not_a_text_file s))).
  { intros args n Ha Hn Hl.
    rewrite (handle_read_file_outcome srv w args s p d mt Ha Hs Hin Hst), Hn.
    rewrite read_loop_int. cbv zeta. fold (file_lines d). rewrite Z.sub_0_r.
    replace (Z.to_nat n <? length (file_lines d))%nat with false
      by (symmetry; apply Nat.ltb_ge; lia).
    rewrite file_iter_end by exact CHUNK_SIZE_pos.
    destruct (utf8_valid d); reflexivity. }
  rewrite (H args1 n1 Ha1 Hn1 Hl1), (H args2 n2 Ha2 Hn2 Hl2). split; reflexivity.
Qed.

Lemma read_file_cap_beyond_end_witness :
  outcome (handle_read_file Demo.srv Demo.w (Demo.args2 "notes.txt" 3))
  = outcome (handle_read_file Demo.srv Demo.w (Demo.args1 "notes.txt")).
Proof.
  pose (p := {| p_abs := true; p_parts := [lit "srv"; lit "data"; lit "notes.txt"] |}).
  destruct (read_file_cap_beyond_end Demo.srv Demo.w (Demo.args2 "notes.txt" 3)
              (Demo.args1 "notes.txt") (lit "notes.txt") p
              (lit ("alpha  " ++ Demo.nl ++ "beta" ++ Demo.nl ++ "gamma" ++ Demo.nl))
              1700000000 3 100) as [H _].
  - reflexivity.
  - reflexivity.
  - discriminate.
  - reflexivity.
  - reflexivity.
  - repeat split.
  - reflexivity.
  - vm_compute. discriminate.
  - vm_compute. discriminate.
  - exact H.
Defined.

(* ===================================================================== *)
(** ** Further properties: the listing and get_file_info agree *)
(* ===================================================================== *)

(** X14.  What the listing shows for an entry is what [get_file_info]
    reports for it.  Take a directory that passes the check of the
    server and an entry of it on which [stat] answers, whose path holds
    no link and whose modification time can be rendered: the line of
    the listing and the answer of [get_file_info] on the path of the
    entry give the same kind and the same size. *)
Theorem listing_agrees_with_file_info (srv : server) (w : world) (p : Path) (n : str)
    (nd : inode) (modified : str) (arguments : gmap str value) :
  p_abs p = true ->
  plain (w_fs w) (p_parts p ++ [n]) ->
  startswith (Path_str p) (Path_str (allowed_path srv)) = true ->
  stat_of w (child p n) = Some nd ->
  w_isoformat w (inode_mtime nd) = inr modified ->
  arguments !! KEY_PATH = Some (VStr (Path_str (child p n))) ->
  outcome (render_entry w (child p n))
  = inr (lit "  [" ++ (if is_dir_inode nd then lit "dir" else lit "file") ++ lit "] " ++ n
         ++ (if is_file_inode nd
             then lit " (" ++ str_of_int (inode_size nd) ++ lit " bytes)" else []))
  /\ outcome (handle_get_file_info srv w arguments)
     = inr (text_result
              (join [LF]
                 [ lit "Path: " ++ Path_str (child p n);
                   lit "Type: " ++ (if is_dir_inode nd then lit "directory" else lit "file");
                   lit "Size: " ++ str_of_int (inode_size nd) ++ lit " bytes";
                   lit "Modified: " ++ modified ])).
Proof.
  intros Hpa Hplain Hst Hstat Hm Ha.
  destruct p as [ab q]. cbn [p_abs p_parts] in *. subst ab.
  pose proof (stat_passes_Some _ _ _ Hstat) as Hpass.
  split.
  - rewrite render_entry_outcome by exact Hpass.
    unfold entry_line. rewrite Hstat. cbn [from_option].
    rewrite Path_name_child. reflexivity.
  - assert (Hchk : startswith (Path_str (child {| p_abs := true; p_parts := q |} n))
                     (Path_str (allowed_path srv)) = true).
    { exact (startswith_trans _ _ _
               (child_str_startswith {| p_abs := true; p_parts := q |} n eq_refl) Hst). }
    pose proof (resolve_path_of_plain srv w (q ++ [n]) Hplain Hchk) as Hres.
    unfold handle_get_file_info. rewrite Ha.
    change (default VNone (Some (VStr ?x))) with (VStr x).
    rewrite truthy_nonempty by (unfold child, Path_str; cbn [p_abs]; discriminate).
    cbn [negb]. unfold child in *. cbn [p_abs p_parts] in *.
    rewrite (outcome_resolved _ _ _ _ _ _ Hres), outcome_exists by exact Hpass.
    rewrite (exists_true _ _ Hstat). cbn [negb].
    rewrite outcome_bind, (Path_stat_Some _ _ _ Hstat). cbn [outcome snd].
    rewrite outcome_is_dir, Hstat by exact Hpass. cbn [from_option].
    rewrite Hm. reflexivity.
Qed.

Lemma listing_agrees_with_file_info_witness :
  outcome (handle_get_file_info Demo.srv Demo.w (Demo.args1 "/srv/data/sub/a.txt"))
  = inr (text_result
           (join [LF]
              [ lit "Path: /srv/data/sub/a.txt"; lit "Type: file";
                lit "Size: 1 bytes"; lit "Modified: t=1700000000" ])).
Proof.
  pose (p := {| p_abs := true; p_parts := [lit "srv"; lit "data"; lit "sub"] |}).
  destruct (listing_agrees_with_file_info Demo.srv Demo.w p
              (lit "a.txt") (Demo.text_file "a") (lit "t=1700000000")
              (Demo.args1 "/srv/data/sub/a.txt"))
    as [_ H].
  - reflexivity.
  - apply plain_snoc;
      [ exact Demo_sub_plain | reflexivity | intros E; vm_compute in E; discriminate E
        | reflexivity
        | apply not_elem_by_decide; vm_compute; reflexivity
        | apply not_elem_by_decide; vm_compute; reflexivity
        | intros t E; vm_compute in E; discriminate E ].
  - reflexivity.
  - reflexivity.
  - reflexivity.
  - reflexivity.
  - rewrite H. vm_compute. reflexivity.
Defined.
